(** * asbest: tasks, task lists and task buckets (task.js)

    A shallow embedding of the task scheduler: [Task] (a wrapped action with
    a status and a tick counter), [TaskWithQueue] (a task owning a queue of
    child tasks and a cursor), [TaskList] (drains its queue in order, with
    the pause/resume idle loop) and [TaskBucket] (a pool of task lists fed
    from the bucket's own queue).

    JavaScript objects are shared by reference: child tasks live in a store
    and queues hold references into it, and the plain objects handed to
    actions (the [state] accumulator) live in an object heap.  Asynchronous
    code is cut at its suspension points: a task list is a small machine
    whose program counter says where [runTasks] is suspended. *)

From stdpp Require Import gmap strings list.
From Stdlib Require Import ZArith Lia.

Local Open Scope Z_scope.

(** ** Values and the object heap *)

(** JavaScript values as far as the scheduler distinguishes them.  [VError]
    is an instance of [Error], [VRef] points to a plain object and [VArray]
    is a new array of the given elements. *)
#[local] Unset Elimination Schemes.
Inductive Value :=
| VUndefined
| VNull
| VBool (b : bool)
| VNum (n : Z)
| VStr (s : string)
| VError (msg : string)
| VRef (l : nat)
| VArray (vs : list Value).
#[local] Set Elimination Schemes.

(** A plain object maps property names to values. *)
Abbreviation Obj := (gmap string Value).
Abbreviation Heap := (gmap nat Obj).

(** Truthiness, as used by [input || {}]. *)
Definition truthy (v : Value) : bool :=
  match v with
  | VUndefined | VNull => false
  | VBool b => b
  | VNum n => negb (n =? 0)
  | VStr s => negb (String.eqb s EmptyString)
  | VError _ | VRef _ | VArray _ => true
  end.

(** [{}]: a new empty object at an address not yet in use. *)
Definition alloc (h : Heap) : nat * Heap :=
  let l := fresh (dom h) in (l, <[l := (∅ : Obj)]> h).

(** Result of a call that may throw. *)
Inductive Outcome (A : Type) :=
| Return (a : A)
| Throw (e : Value).
Arguments Return {A} a.
Arguments Throw {A} e.

(** ** Task *)

Inductive Status := S_created | S_execute | S_done | S_error.

#[global] Instance Status_eq_dec : EqDecision Status.
Proof. solve_decision. Defined.

(** The [controller] a task list hands to its children: the list itself, or
    the bucket that owns it. *)
Inductive Controller := ctl_this | ctl_bucket.

(** What a child action receives as [input]: the caller's value as it is, or
    the object [{state, last, controller}] built by a task list. *)
Inductive Input :=
| in_raw (v : Value)
| in_ctx (state last : Value) (controller : Controller).

(** Signals passed to [emit].  [sig_status s] is [emit(status, this)] from
    [state]; the [child_*] signals carry the reference of the child. *)
Inductive Signal :=
| sig_status (s : Status)
| sig_error (e : Value)
| sig_progress (ticks : Z)
| sig_empty
| child_error (e : Value) (c : nat)
| child_execute (c : nat)
| child_progress (c : nat) (ticks : Z)
| child_done (c : nat).

(** The data fields of a [Task].  [errorListeners] and [errorOnce] count the
    listeners registered for ['error'] on the underlying EventEmitter with
    [on] and with [once], and [emitted] records the calls of [emit], oldest
    first. *)
Record Fields := mkFields {
  description : string;
  isTicking : bool;
  totalTicks : Z;
  ticks : Z;
  status : Status;
  result : Value;
  error : Value;
  errorListeners : nat;
  errorOnce : nat;
  emitted : list Signal
}.

Definition set_status (s : Status) (f : Fields) : Fields :=
  mkFields (description f) (isTicking f) (totalTicks f) (ticks f) s
           (result f) (error f) (errorListeners f) (errorOnce f) (emitted f).
Definition set_result (v : Value) (f : Fields) : Fields :=
  mkFields (description f) (isTicking f) (totalTicks f) (ticks f) (status f)
           v (error f) (errorListeners f) (errorOnce f) (emitted f).
Definition set_error (e : Value) (f : Fields) : Fields :=
  mkFields (description f) (isTicking f) (totalTicks f) (ticks f) (status f)
           (result f) e (errorListeners f) (errorOnce f) (emitted f).
Definition set_ticks (t : Z) (f : Fields) : Fields :=
  mkFields (description f) (isTicking f) (totalTicks f) t (status f)
           (result f) (error f) (errorListeners f) (errorOnce f) (emitted f).
Definition set_totalTicks (t : Z) (f : Fields) : Fields :=
  mkFields (description f) (isTicking f) t (ticks f) (status f)
           (result f) (error f) (errorListeners f) (errorOnce f) (emitted f).
Definition set_emitted (l : list Signal) (f : Fields) : Fields :=
  mkFields (description f) (isTicking f) (totalTicks f) (ticks f) (status f)
           (result f) (error f) (errorListeners f) (errorOnce f) l.
(** [on('error', ...)] *)
Definition on_error (f : Fields) : Fields :=
  mkFields (description f) (isTicking f) (totalTicks f) (ticks f) (status f)
           (result f) (error f) (S (errorListeners f)) (errorOnce f) (emitted f).
(** [once('error', ...)] *)
Definition once_error (f : Fields) : Fields :=
  mkFields (description f) (isTicking f) (totalTicks f) (ticks f) (status f)
           (result f) (error f) (errorListeners f) (S (errorOnce f)) (emitted f).
(** The [once] listeners are removed when their signal is delivered. *)
Definition clear_once (f : Fields) : Fields :=
  mkFields (description f) (isTicking f) (totalTicks f) (ticks f) (status f)
           (result f) (error f) (errorListeners f) 0%nat (emitted f).

(** The constructor of [Task]. *)
Definition new_fields (d : string) (ticking : bool) (total : Z) : Fields :=
  mkFields d ticking total 0 S_created VUndefined VUndefined 0%nat 0%nat [].

(** An action reads its input, may change plain objects, may call
    [task.progress] (the reported tick values, in order) and returns or
    throws.  The [controller] it is handed offers [addTask] and
    [prependTask] only, and both throw while the list or bucket behind it
    runs (see [addTask] below): an action cannot change a queue, and what it
    does with that exception is part of its outcome. *)
Definition Action : Type := Input -> Heap -> Heap * list Z * Outcome Value.

Record Task := mkTask {
  fields : Fields;
  action : Action
}.

(** [EventEmitter.emit]: an ['error'] signal with no listener registered is
    thrown instead of delivered, the argument itself when it is an [Error]
    and a new [Error] otherwise. *)
Definition unhandled (e : Value) : Value :=
  match e with
  | VError _ => e
  | _ => VError "Unhandled error."
  end.

Definition is_error_signal (s : Signal) : option Value :=
  match s with
  | sig_error e => Some e
  | sig_status S_error => Some VUndefined
  | _ => None
  end.

Definition emit (s : Signal) (f : Fields) : Fields * option Value :=
  let f' := set_emitted (emitted f ++ [s]) f in
  match is_error_signal s with
  | Some e => if Nat.eqb (errorListeners f + errorOnce f) 0
              then (f', Some (unhandled e))
              else (clear_once f', None)
  | None => (f', None)
  end.

(** [state(status)] *)
Definition state (s : Status) (f : Fields) : Fields * option Value :=
  emit (sig_status s) (set_status s f).

(** [progress(ticks)] *)
Definition progress (t : Z) (f : Fields) : Fields :=
  fst (emit (sig_progress t) (set_ticks t f)).

(** The calls of [task.progress] made by the action while it runs. *)
Definition report (rs : list Z) (f : Fields) : Fields :=
  fold_left (fun f r => progress r f) rs f.
Arguments report : simpl never.

(** The [catch] block of [execute]. *)
Definition execute_catch (e : Value) (f : Fields) : Fields * Value :=
  match emit (sig_error e) (set_error e f) with
  | (f', Some e') => (f', e')
  | (f', None) => (set_status S_error f', e)
  end.

(** The part of [execute] after the action has settled with [out]. *)
Definition execute_settle (out : Outcome Value) (f : Fields)
  : Fields * Outcome Value :=
  match out with
  | Return v =>
      match state S_done (set_result v f) with
      | (f', None) => (f', Return (result f'))
      | (f', Some e) => let '(f'', e') := execute_catch e f' in (f'', Throw e')
      end
  | Throw e => let '(f', e') := execute_catch e f in (f', Throw e')
  end.

(** The part of [execute] up to the call of the action.  ['execute'] is not
    an error signal, so [state] cannot throw here. *)
Definition execute_begin (f : Fields) : Fields := fst (state S_execute f).

(** [execute(input)] for a task whose action is an opaque function. *)
Definition execute (inp : Input) (t : Task) (h : Heap)
  : Task * Heap * Outcome Value :=
  let f1 := execute_begin (fields t) in
  let '(h', reports, out) := action t inp h in
  let f2 := report reports f1 in
  let '(f3, o) := execute_settle out f2 in
  (mkTask f3 (action t), h', o).

(** A promise is pending or settled. *)
Inductive Promise :=
| Pending
| Settled (o : Outcome Value).

(** [toPromise()]: runs a task that is still ['created']; otherwise
    subscribes once to ['done'] and ['error'] and waits for a later signal. *)
Definition toPromise (t : Task) (h : Heap) : Task * Heap * Promise :=
  match status (fields t) with
  | S_created =>
      let '(t', h', o) := execute (in_raw VNull) t h in (t', h', Settled o)
  | _ => (mkTask (once_error (fields t)) (action t), h, Pending)
  end.

(** ** TaskWithQueue *)

(** Child tasks are objects shared between the queues that hold them: the
    store maps a reference to the task it denotes. *)
Abbreviation Units := (gmap nat Task).

Record TaskWithQueue := mkQueue {
  q_fields : Fields;
  tasks : list nat;
  taskIndex : nat
}.

(** The constructor: a ticking task whose [totalTicks] is the queue length. *)
Definition new_queue (ts : list nat) (d : string) : TaskWithQueue :=
  mkQueue (new_fields d true (Z.of_nat (length ts))) ts 0%nat.

Definition allowTaskAddition (q : TaskWithQueue) : bool :=
  negb (bool_decide (status (q_fields q) = S_done))
  && negb (bool_decide (status (q_fields q) = S_error)).

Definition cant_add : Value :=
  VError "Can't add tasks after list is finished or a task failed".

(** [tasks.splice(i, 0, task)] *)
Definition splice_in (i : nat) (u : nat) (l : list nat) : list nat :=
  take i l ++ u :: drop i l.

(** [prependTask] and [addTask]; [allow] is the value of
    [this.allowTaskAddition()], which a subclass may override. *)
Definition prependTask (allow : bool) (u : nat) (q : TaskWithQueue)
  : Outcome TaskWithQueue :=
  if allow then Throw cant_add
  else Return (mkQueue (set_totalTicks (totalTicks (q_fields q) + 1) (q_fields q))
                       (splice_in (taskIndex q) u (tasks q)) (taskIndex q)).

Definition addTask (allow : bool) (u : nat) (q : TaskWithQueue)
  : Outcome TaskWithQueue :=
  if allow then Throw cant_add
  else Return (mkQueue (set_totalTicks (totalTicks (q_fields q) + 1) (q_fields q))
                       (tasks q ++ [u]) (taskIndex q)).

(** ** TaskList *)

(** The listeners that [runTasks] registers on a child stay on the child for
    good and refer back to the list.  [listening] keeps them from the side of
    the list: the references of the children it has registered its four
    listeners on, one entry per registration, oldest first. *)
Record TaskList := mkList {
  l_queue : TaskWithQueue;
  wait : bool;
  empty : bool;
  isQueue : bool;
  controller : Controller;
  listening : list nat
}.

Definition new_list (ts : list nat) (d : string) (c : Controller) (q : bool)
  : TaskList :=
  mkList (new_queue ts d) false false q c [].

Definition set_queue (q : TaskWithQueue) (l : TaskList) : TaskList :=
  mkList q (wait l) (empty l) (isQueue l) (controller l) (listening l).
Definition set_lfields (f : Fields) (l : TaskList) : TaskList :=
  set_queue (mkQueue f (tasks (l_queue l)) (taskIndex (l_queue l))) l.
Definition set_empty (b : bool) (l : TaskList) : TaskList :=
  mkList (l_queue l) (wait l) b (isQueue l) (controller l) (listening l).
Definition set_wait (b : bool) (l : TaskList) : TaskList :=
  mkList (l_queue l) b (empty l) (isQueue l) (controller l) (listening l).
(** The four calls of [task.on] at the head of an iteration of [runTasks]. *)
Definition listen (c : nat) (l : TaskList) : TaskList :=
  mkList (l_queue l) (wait l) (empty l) (isQueue l) (controller l)
         (listening l ++ [c]).
(** How many sets of listeners the list holds on the child [c]. *)
Definition listeners_on (c : nat) (l : TaskList) : nat :=
  count_occ Nat.eq_dec (listening l) c.

Definition pause (l : TaskList) : TaskList := set_wait true l.
Definition resume (l : TaskList) : TaskList := set_wait false l.

Definition list_addTask (u : nat) (l : TaskList) : Outcome TaskList :=
  match addTask (allowTaskAddition (l_queue l)) u (l_queue l) with
  | Return q => Return (set_queue q l)
  | Throw e => Throw e
  end.

Definition list_prependTask (u : nat) (l : TaskList) : Outcome TaskList :=
  match prependTask (allowTaskAddition (l_queue l)) u (l_queue l) with
  | Return q => Return (set_queue q l)
  | Throw e => Throw e
  end.

(** Where [runTasks] of a task list is suspended: before the loop test
    ([pc_loop], with the local variables [state] and [last]), inside
    [stayIdle] ([pc_idle]), or finished together with the [execute] that
    called it ([pc_settled]). *)
Inductive PC :=
| pc_loop (state last : Value)
| pc_idle (state last : Value)
| pc_settled (o : Outcome Value).

(** A running task list: the object, the program counter, the [input] of
    [runTasks], and a record of the calls of [task.execute] made so far
    (reference of the child, input handed to it, and how the call ended;
    oldest first). *)
Record Proc := mkProc {
  lane : TaskList;
  pc : PC;
  input : Value;
  calls : list (nat * Input * Outcome Value)
}.

Definition lfields (l : TaskList) : Fields := q_fields (l_queue l).

(** The listeners a task list registers on a child re-emit its signals on
    the list. *)
Definition relabel (c : nat) (s : Signal) : option Signal :=
  match s with
  | sig_error e => Some (child_error e c)
  | sig_status S_execute => Some (child_execute c)
  | sig_progress t => Some (child_progress c t)
  | sig_status S_done => Some (child_done c)
  | _ => None
  end.

(** A signal of the child reaches every set of listeners the list holds on
    it, in the order of registration: with [k] sets each signal is re-emitted
    [k] times in a row. *)
Definition relayed (k : nat) (sigs : list Signal) : list Signal :=
  flat_map (replicate k) sigs.

(** [emit] on the task list for a signal that is not ['error']. *)
Definition list_emit (s : Signal) (l : TaskList) : TaskList :=
  set_lfields (fst (emit s (lfields l))) l.

(** [this.progress(this.taskIndex++)] *)
Definition list_progress (l : TaskList) : TaskList :=
  let i := taskIndex (l_queue l) in
  set_queue (mkQueue (progress (Z.of_nat i) (lfields l))
                     (tasks (l_queue l)) (S i)) l.

(** [state = input || {}] *)
Definition initial_state (inp : Value) (h : Heap) : Value * Heap :=
  if truthy inp then (inp, h)
  else let '(a, h') := alloc h in (VRef a, h').

(** The call [list.execute(input)] up to the loop of [runTasks]. *)
Definition list_execute (inp : Value) (l : TaskList) (h : Heap) : Proc * Heap :=
  let l1 := set_lfields (execute_begin (lfields l)) l in
  let '(st, h') := initial_state inp h in
  (mkProc l1 (pc_loop st (VBool false)) inp [], h').

(** [runTasks] returns or throws, which settles the surrounding [execute]. *)
Definition finish (o : Outcome Value) (l : TaskList) (p : Proc) : Proc :=
  let '(f, o') := execute_settle o (lfields l) in
  mkProc (set_lfields f l) (pc_settled o') (input p) (calls p).

(** The input a task list hands to the child it is about to run. *)
Definition child_input (st last : Value) (p : Proc) : Input :=
  if isQueue (lane p) then in_raw (input p)
  else in_ctx st last (controller (lane p)).

(** A reference the store does not hold stands for a queue entry that is
    [undefined]: the call [task.on(...)] on it throws a [TypeError], and so
    does reading its [result]. *)
Definition not_a_task : Value :=
  VError "TypeError: Cannot read properties of undefined (reading 'on')".
Definition no_result : Value :=
  VError "TypeError: Cannot read properties of undefined (reading 'result')".

Section Lane.
(** [B] is the state of whoever listens to the task list: nothing for a
    list on its own, the bucket for a list of its pool. *)
Context {B : Type}.
(** The listeners for the [child/*] signals of the list. *)
Variable onChild : Signal -> B -> B.
(** The listeners for ['empty']; they receive the list and may throw. *)
Variable onEmpty : TaskList -> B -> TaskList * B * option Value.

(** One iteration of the loop of [runTasks] on the child [c].  The list
    adds a set of listeners to the child and never removes one, so a child
    it has started before has its signals re-emitted once per set.
    Listeners that other lists hold on the same child re-emit on those
    lists; they are outside this list's turn. *)
Definition run_child (st last : Value) (c : nat) (p : Proc)
           (us : Units) (h : Heap) (b : B) : Proc * Units * Heap * B :=
  let l0 := set_empty false (lane p) in
  match us !! c with
  | None => (finish (Throw not_a_task) l0 p, us, h, b)
  | Some t =>
      let l1 := listen c l0 in
      let t1 := mkTask (on_error (fields t)) (action t) in
      let inp := child_input st last p in
      let '(t2, h', o) := execute inp t1 h in
      let sigs := relayed (listeners_on c l1)
                    (omap (relabel c)
                       (drop (length (emitted (fields t))) (emitted (fields t2)))) in
      let l2 := fold_left (fun l s => list_emit s l) sigs l1 in
      let b1 := fold_left (fun b s => onChild s b) sigs b in
      let us' := <[c := t2]> us in
      let p' := mkProc l2 (pc p) (input p) (calls p ++ [(c, inp, o)]) in
      match o with
      | Throw e => (finish (Throw e) l2 p', us', h', b1)
      | Return v =>
          let l3 := list_progress l2 in
          if (length (tasks (l_queue l3)) <=? taskIndex (l_queue l3))%nat then
            let '(l4, b2, exn) := onEmpty (list_emit sig_empty l3) b1 in
            match exn with
            | Some e => (finish (Throw e) l4 p', us', h', b2)
            | None => (mkProc (set_empty true l4) (pc_idle st v)
                              (input p) (calls p'), us', h', b2)
            end
          else (mkProc l3 (pc_loop st v) (input p) (calls p'), us', h', b1)
      end
  end.

(** The task list runs from one suspension point to the next. *)
Definition list_step (p : Proc) (us : Units) (h : Heap) (b : B)
  : Proc * Units * Heap * B :=
  match pc p with
  | pc_settled _ => (p, us, h, b)
  | pc_idle st last =>
      (* [do { await immediate() } while (this.wait)] *)
      if wait (lane p) then (p, us, h, b)
      else (mkProc (lane p) (pc_loop st last) (input p) (calls p), us, h, b)
  | pc_loop st last =>
      let q := l_queue (lane p) in
      if (taskIndex q <? length (tasks q))%nat then
        match tasks q !! taskIndex q with
        | Some c => run_child st last c p us h b
        | None => (finish (Throw not_a_task) (lane p) p, us, h, b)
        end
      else (finish (Return last) (lane p) p, us, h, b)
  end.

(** [n] turns of the task list with nothing else running in between. *)
Fixpoint list_steps (n : nat) (p : Proc) (us : Units) (h : Heap) (b : B)
  : Proc * Units * Heap * B :=
  match n with
  | O => (p, us, h, b)
  | S n' =>
      let '(p', us', h', b') := list_step p us h b in
      list_steps n' p' us' h' b'
  end.
End Lane.

(** A task list on its own: nobody listens. *)
Definition alone_onChild (s : Signal) (b : unit) : unit := b.
Definition alone_onEmpty (l : TaskList) (b : unit)
  : TaskList * unit * option Value := (l, b, None).

(** [list.execute(input)] for a task list on its own, followed for [n]
    turns. *)
Definition run_list (n : nat) (inp : Value) (l : TaskList) (us : Units) (h : Heap)
  : Proc * Units * Heap :=
  let '(p, h1) := list_execute inp l h in
  let '(p', us', h', _) := list_steps alone_onChild alone_onEmpty n p us h1 tt in
  (p', us', h').

(** ** TaskBucket *)

(** [collect(tasks, input)]: reads the tasks of the bucket and may change
    plain objects. *)
Definition Collect : Type :=
  list nat -> Units -> Value -> Heap -> Heap * Outcome Value.

(** [taskLists] holds each task list of the pool together with the state of
    its pending [execute].  [rejected] is the state of the [Promise.all]
    over these executions: the first rejection, if any. *)
Record TaskBucket := mkBucket {
  b_queue : TaskWithQueue;
  taskLists : list Proc;
  parallel : Z;
  collect : option Collect;
  clearing : bool;
  rejected : option Value
}.

Definition new_bucket (ts : list nat) (par : Z) (d : string)
           (col : option Collect) : TaskBucket :=
  mkBucket (new_queue ts d) [] par col false None.

Definition set_bqueue (q : TaskWithQueue) (b : TaskBucket) : TaskBucket :=
  mkBucket q (taskLists b) (parallel b) (collect b) (clearing b) (rejected b).
Definition set_bfields (f : Fields) (b : TaskBucket) : TaskBucket :=
  set_bqueue (mkQueue f (tasks (b_queue b)) (taskIndex (b_queue b))) b.
Definition set_taskLists (ls : list Proc) (b : TaskBucket) : TaskBucket :=
  mkBucket (b_queue b) ls (parallel b) (collect b) (clearing b) (rejected b).
Definition set_rejected (r : option Value) (b : TaskBucket) : TaskBucket :=
  mkBucket (b_queue b) (taskLists b) (parallel b) (collect b) (clearing b) r.

Definition bfields (b : TaskBucket) : Fields := q_fields (b_queue b).

(** The override of [allowTaskAddition]. *)
Definition bucket_allowTaskAddition (b : TaskBucket) : bool :=
  negb (clearing b) && allowTaskAddition (b_queue b).

Definition bucket_addTask (u : nat) (b : TaskBucket) : Outcome TaskBucket :=
  match addTask (bucket_allowTaskAddition b) u (b_queue b) with
  | Return q => Return (set_bqueue q b)
  | Throw e => Throw e
  end.

Definition bucket_prependTask (u : nat) (b : TaskBucket) : Outcome TaskBucket :=
  match prependTask (bucket_allowTaskAddition b) u (b_queue b) with
  | Return q => Return (set_bqueue q b)
  | Throw e => Throw e
  end.

Definition set_lane (l : TaskList) (p : Proc) : Proc :=
  mkProc l (pc p) (input p) (calls p).

(** [checkDone()] *)
Definition checkDone (b : TaskBucket) : TaskBucket :=
  if forallb (fun p => empty (lane p)) (taskLists b)
  then set_taskLists (map (fun p => set_lane (resume (lane p)) p) (taskLists b)) b
  else b.

(** The listeners the bucket registers on each task list of its pool. *)
Definition bucket_onChild (s : Signal) (b : TaskBucket) : TaskBucket :=
  let b1 := set_bfields (fst (emit s (bfields b))) b in
  match s with
  | child_done _ => set_bfields (progress (ticks (bfields b1) + 1) (bfields b1)) b1
  | _ => b1
  end.

(** The ['empty'] listener, called by the task list [l] at position [i] of
    the pool while it runs. *)
Definition bucket_onEmpty (i : nat) (l : TaskList) (b : TaskBucket)
  : TaskList * TaskBucket * option Value :=
  let q := b_queue b in
  if (length (tasks q) <=? taskIndex q)%nat then
    let b1 := checkDone (set_taskLists (alter (set_lane l) i (taskLists b)) b) in
    (from_option lane l (taskLists b1 !! i), b1, None)
  else
    match tasks q !! taskIndex q with
    | Some u =>
        let b1 := set_bqueue (mkQueue (q_fields q) (tasks q) (S (taskIndex q))) b in
        match list_addTask u l with
        | Return l' => (l', b1, None)
        | Throw e => (l, b1, Some e)
        end
    | None => (l, b, None)
    end.

(** The first loop of [runTasks]: fill the pool up to [parallel] paused,
    empty task lists whose controller is the bucket. *)
Definition spawn (b : TaskBucket) : list TaskList :=
  map lane (taskLists b)
  ++ replicate (Z.to_nat (parallel b - Z.of_nat (length (taskLists b))))
               (pause (new_list [] "no description given" ctl_bucket true)).

(** [this.taskLists.map((task) => task.execute(input))] *)
Fixpoint execute_all (inp : Value) (ls : list TaskList) (h : Heap)
  : list Proc * Heap :=
  match ls with
  | [] => ([], h)
  | l :: ls' =>
      let '(p, h1) := list_execute inp l h in
      let '(ps, h2) := execute_all inp ls' h1 in
      (p :: ps, h2)
  end.

Definition is_settled (p : PC) : bool :=
  match p with pc_settled _ => true | _ => false end.

(** The task list at position [i] of the pool takes its turn. *)
Definition bucket_step (i : nat) (b : TaskBucket) (us : Units) (h : Heap)
  : TaskBucket * Units * Heap :=
  match taskLists b !! i with
  | None => (b, us, h)
  | Some p =>
      let '(p', us', h', b1) := list_step bucket_onChild (bucket_onEmpty i) p us h b in
      let b2 := set_taskLists (<[i := p']> (taskLists b1)) b1 in
      let b3 := match pc p', rejected b2 with
                | pc_settled (Throw e), None =>
                    if is_settled (pc p) then b2 else set_rejected (Some e) b2
                | _, _ => b2
                end in
      (b3, us', h')
  end.

(** The task lists take turns in the order [sched]. *)
Fixpoint bucket_steps (sched : list nat) (b : TaskBucket) (us : Units) (h : Heap)
  : TaskBucket * Units * Heap :=
  match sched with
  | [] => (b, us, h)
  | i :: sched' =>
      let '(b', us', h') := bucket_step i b us h in
      bucket_steps sched' b' us' h'
  end.

Definition resolved (p : Proc) : bool :=
  match pc p with pc_settled (Return _) => true | _ => false end.

(** [this.tasks.map((x: Task): any => x.result)]: a new array of the
    results in the order of the queue; the callback throws on an entry that
    is [undefined]. *)
Definition results (ts : list nat) (us : Units) : Outcome Value :=
  match mapM (fun c => (fun t => result (fields t)) <$> us !! c) ts with
  | Some vs => Return (VArray vs)
  | None => Throw no_result
  end.

(** [runTasks] after [await Promise.all(...)]. *)
Definition bucket_collect (inp : Value) (b : TaskBucket) (us : Units) (h : Heap)
  : Heap * Promise :=
  match rejected b with
  | Some e => (h, Settled (Throw e))
  | None =>
      if forallb resolved (taskLists b) then
        match collect b with
        | Some f => let '(h', o) := f (tasks (b_queue b)) us inp h in (h', Settled o)
        | None => (h, Settled (results (tasks (b_queue b)) us))
        end
      else (h, Pending)
  end.

(** [bucket.execute(input)], the task lists taking turns in the order
    [sched] while the bucket waits for them. *)
Definition bucket_execute (sched : list nat) (inp : Value) (b : TaskBucket)
           (us : Units) (h : Heap) : TaskBucket * Units * Heap * Promise :=
  let b1 := set_bfields (execute_begin (bfields b)) b in
  let '(ps, h1) := execute_all inp (spawn b1) h in
  let b2 := set_rejected None (set_taskLists ps b1) in
  let '(b3, us', h2) := bucket_steps sched b2 us h1 in
  match bucket_collect inp b3 us' h2 with
  | (h3, Settled o) =>
      let '(f, o') := execute_settle o (bfields b3) in
      (set_bfields f b3, us', h3, Settled o')
  | (h3, Pending) => (b3, us', h3, Pending)
  end.

(** ** Observations used in the statements *)

(** The public operations of a task. *)
Inductive Op :=
| op_execute (inp : Input)
| op_toPromise
| op_progress (t : Z).

Definition apply_op (o : Op) (t : Task) (h : Heap) : Task * Heap :=
  match o with
  | op_execute inp => let '(t', h', _) := execute inp t h in (t', h')
  | op_toPromise => let '(t', h', _) := toPromise t h in (t', h')
  | op_progress z => (mkTask (progress z (fields t)) (action t), h)
  end.

Definition terminal (s : Status) : bool :=
  match s with S_done | S_error => true | _ => false end.

(** The tick values of the ['progress'] signals in a record of signals. *)
Definition progress_ticks (l : list Signal) : list Z :=
  omap (fun s => match s with sig_progress t => Some t | _ => None end) l.

(** The statuses announced through [state] in a record of signals. *)
Definition announced (l : list Signal) : list Status :=
  omap (fun s => match s with sig_status st => Some st | _ => None end) l.

(** The queue after a successful [addTask] or [prependTask]. *)
Definition grown (ts : list nat) (q : TaskWithQueue) : TaskWithQueue :=
  mkQueue (set_totalTicks (totalTicks (q_fields q) + 1) (q_fields q)) ts (taskIndex q).

(** An action that always returns. *)
Definition returns (a : Action) : Prop :=
  forall inp h, exists h' rs v, a inp h = (h', rs, Return v).

(** The list after it has emitted the signals [sigs], none of them
    ['error']. *)
Definition emitted_more (sigs : list Signal) (l : TaskList) : TaskList :=
  set_lfields (set_emitted (emitted (lfields l) ++ sigs) (lfields l)) l.

(** A task list of a pool that has been given no task and has run none:
    it is about to test its loop, or has returned. *)
Definition untouched (p : Proc) : Prop :=
  tasks (l_queue (lane p)) = [] /\ calls p = []
  /\ ((exists st last, pc p = pc_loop st last) \/ exists v, pc p = pc_settled (Return v)).

(** The [last] a child found in its input, and the value a call returned. *)
Definition call_last (inp : Input) : option Value :=
  match inp with in_ctx _ last _ => Some last | in_raw _ => None end.
Definition call_result (o : Outcome Value) : option Value :=
  match o with Return v => Some v | Throw _ => None end.

(** The input a task list built with [isQueue = q] and run on [inp] hands
    to a child, [st] and [prev] being its [state] and [last]. *)
Definition list_input (q : bool) (inp st : Value) (ctl : Controller)
           (prev : Value) : Input :=
  if q then in_raw inp else in_ctx st prev ctl.

(** The calls [cs] run the children [ts] in order, each returning, each
    receiving the input [mk prev] built from the value [prev] returned by
    the call before it (the given [prev] for the first), and [final] is the
    value returned by the last call. *)
Fixpoint chained (mk : Value -> Input) (prev : Value) (ts : list nat)
         (cs : list (nat * Input * Outcome Value)) (final : Value) : Prop :=
  match ts, cs with
  | [], [] => final = prev
  | c :: ts', (c', inp, o) :: cs' =>
      c' = c /\ inp = mk prev
      /\ exists v, o = Return v /\ chained mk v ts' cs' final
  | _, _ => False
  end.

(** Every reference of the queue denotes a task whose action returns. *)
Definition all_return (ts : list nat) (us : Units) : Prop :=
  Forall (fun c => exists t, us !! c = Some t /\ returns (action t)) ts.

(** A run of the units [ts] as the specification words it: the units are
    called in the order of the queue, each on the input [mk prev] made of
    the result of the unit before it ([prev] for the first) and on the heap
    the unit before it left; the run succeeds when every unit succeeds, and
    its result is the result of the last unit.  It yields the record of the
    calls, the result and the heap. *)
Fixpoint threaded (mk : Value -> Input) (us : Units) (ts : list nat)
         (prev : Value) (h : Heap)
  : option (list (nat * Input * Outcome Value) * Value * Heap) :=
  match ts with
  | [] => Some ([], prev, h)
  | c :: ts' =>
      match us !! c with
      | None => None
      | Some t =>
          match action t (mk prev) h with
          | (h', _, Return v) =>
              match threaded mk us ts' v h' with
              | Some (cs, final, hf) =>
                  Some ((c, mk prev, Return v) :: cs, final, hf)
              | None => None
              end
          | (_, _, Throw _) => None
          end
      end
  end.

(** ** Sample tasks *)

Definition new_task (a : Action) : Task :=
  mkTask (new_fields "no description given" false 0) a.

(** [() => 1], [({last}) => last + 1], [(x) => x] and an action that
    throws. *)
Definition return_one : Action := fun _ h => (h, [], Return (VNum 1)).
Definition add_one : Action := fun inp h =>
  match inp with
  | in_ctx _ (VNum n) _ => (h, [], Return (VNum (n + 1)))
  | _ => (h, [], Return VUndefined)
  end.
Definition echo : Action := fun inp h =>
  match inp with
  | in_raw v => (h, [], Return v)
  | in_ctx _ last _ => (h, [], Return last)
  end.
Definition boom : Action := fun _ h => (h, [], Throw (VError "boom")).

(** A task list with the single child [boom], about to enter its loop. *)
Definition failing_list : Proc * Heap :=
  list_execute VUndefined (new_list [0%nat] "steps" ctl_this false) ∅.
Definition failing_units : Units := {[ 0%nat := new_task boom ]}.

(** A task that has run once on the input [1], and a ticking task. *)
Definition echo_done : Task :=
  fst (fst (execute (in_raw (VNum 1)) (new_task echo) ∅)).
Definition ticking_task : Task :=
  mkTask (new_fields "download" true 10) return_one.

(** A task list as a bucket builds it, given one child by hand, about to
    enter its loop on the input [5]. *)
Definition given_list : TaskList :=
  mkList (new_queue [0%nat] "no description given") true false true ctl_bucket [].
Definition queue_list : Proc * Heap := list_execute (VNum 5) given_list ∅.
Definition echo_units : Units := {[ 0%nat := new_task echo ]}.

(** A bucket with two tasks left to hand out and one task list in its
    pool, and that task list while it runs. *)
Definition feeding_bucket : TaskBucket :=
  set_taskLists [fst queue_list] (new_bucket [1%nat; 2%nat] 1 "Hey!" None).
Definition running_list : TaskList := lane (fst queue_list).

(** The task list of the test: [return 1], then [add 1]. *)
Definition two_units : Units :=
  <[0%nat := new_task return_one]> {[ 1%nat := new_task add_one ]}.
Definition two_steps : TaskList := new_list [0%nat; 1%nat] "steps" ctl_this false.

(** A task list built with [isQueue], and the children [() => 1] and
    [(x) => x]. *)
Definition queue_steps : TaskList := new_list [0%nat; 1%nat] "steps" ctl_this true.
Definition one_then_echo : Units :=
  <[0%nat := new_task return_one]> {[ 1%nat := new_task echo ]}.

(** A listener that keeps what it hears and does nothing on ['empty']. *)
Definition log_onChild (s : Signal) (b : list Signal) : list Signal := b ++ [s].
Definition log_onEmpty (l : TaskList) (b : list Signal)
  : TaskList * list Signal * option Value := (l, b, None).

(** A task list that holds the same task twice, after its first turn. *)
Definition twice_list : TaskList := new_list [0%nat; 0%nat] "steps" ctl_this false.
Definition twice_started : Proc * Units * Heap * list Signal :=
  let '(p, h) := list_execute VNull twice_list ∅ in
  list_step log_onChild log_onEmpty p echo_units h [].

(** A bucket whose only task list was given the same task twice by hand. *)
Definition twice_bucket : TaskBucket :=
  set_taskLists
    [fst (list_execute (VNum 5)
            (mkList (new_queue [0%nat; 0%nat] "no description given")
                    true false true ctl_bucket []) ∅)]
    (new_bucket [] 1 "Hey!" None).

(** A bucket whose only task list was given the child [0] by hand after a
    first run. *)
Definition rerun_bucket : TaskBucket :=
  set_taskLists [mkProc given_list (pc_settled (Return (VBool false))) VNull []]
                (new_bucket [] 1 "Hey!" None).

(** ** TaskUtil and BuildUtil *)

(** An optional argument is [None] when the caller leaves it out. *)
Module TaskUtil.

Definition create (a : Action) (d : option string) : Task :=
  mkTask (new_fields (default "no description given" d) false 0) a.

Definition createTicking (a : Action) (total : Z) (d : option string) : Task :=
  mkTask (new_fields (default "no description given" d) true total) a.

Definition createBucket (ts : list nat) (par : option Z) (col : option Collect)
           (d : option string) : TaskBucket :=
  new_bucket ts (default 10 par) (default "no description given" d) col.

Definition createList (ts : list nat) (d : option string) : TaskList :=
  new_list ts (default "no description given" d) ctl_this false.

End TaskUtil.

(** What [BuildUtil.one] is given: a task that exists already, or the
    object [{description, action, ticks}]. *)
Inductive BuildTaskDefinition :=
| built (t : nat)
| plain (description : option string) (action : Action) (ticks : option Z).

(** The action handed to [BuildUtil.map]: it receives the item. *)
Definition ItemAction : Type := Value -> Heap -> Heap * list Z * Outcome Value.

Module BuildUtil.

(** [if (task.ticks)]: a number other than [0]. *)
Definition has_ticks (tk : option Z) : option Z :=
  match tk with
  | Some z => if z =? 0 then None else Some z
  | None => None
  end.

(** [one(task)]: the task itself when it is one, a new task otherwise (a
    new object gets a reference that is not in use). *)
Definition one (d : BuildTaskDefinition) (us : Units) : nat * Units :=
  match d with
  | built t => (t, us)
  | plain desc a tk =>
      let t := match has_ticks tk with
               | Some z => TaskUtil.createTicking a z desc
               | None => TaskUtil.create a desc
               end in
      let r := fresh (dom us) in (r, <[r := t]> us)
  end.

(** [tasks.map((task) => BuildUtil.one(task))] *)
Fixpoint many (ds : list BuildTaskDefinition) (us : Units) : list nat * Units :=
  match ds with
  | [] => ([], us)
  | d :: ds' =>
      let '(r, us1) := one d us in
      let '(rs, us2) := many ds' us1 in
      (r :: rs, us2)
  end.

(** The definition [map] builds for an item: its action ignores the input
    of the task and calls [act] on the item. *)
Definition item_definition (act : ItemAction) (dm : option (Value -> string))
           (item : Value) : BuildTaskDefinition :=
  plain (Some (match dm with
               | Some f => f item
               | None => "no description given"
               end))
        (fun _ h => act item h) None.

Definition map (items : list Value) (act : ItemAction)
           (dm : option (Value -> string)) (us : Units) : list nat * Units :=
  many (List.map (item_definition act dm) items) us.

Definition listMap (items : list Value) (act : ItemAction)
           (d : option string) (dm : option (Value -> string)) (us : Units)
  : TaskList * Units :=
  let '(rs, us') := map items act dm us in (TaskUtil.createList rs d, us').

Definition parallelMap (items : list Value) (act : ItemAction)
           (d : option string) (par : option Z) (dm : option (Value -> string))
           (col : option Collect) (us : Units) : TaskBucket * Units :=
  let '(rs, us') := map items act dm us in
  (TaskUtil.createBucket rs par col d, us').

Definition parallel (ds : Datatypes.list BuildTaskDefinition) (par : option Z)
           (d : option string) (col : option Collect) (us : Units)
  : TaskBucket * Units :=
  let '(rs, us') := many ds us in
  (TaskUtil.createBucket rs par col (Some (default "no description given" d)), us').

Definition list (ds : Datatypes.list BuildTaskDefinition) (us : Units)
  : TaskList * Units :=
  let '(rs, us') := many ds us in (TaskUtil.createList rs None, us').

End BuildUtil.

(** ** Further observations *)

(** [totalTicks] counts the tasks of the queue. *)
Definition ticks_match (q : TaskWithQueue) : Prop :=
  totalTicks (q_fields q) = Z.of_nat (length (tasks q)).

(** A task with queue that is done, holding the tasks [3] and [4] with the
    cursor on the second. *)
Definition done_queue : TaskWithQueue :=
  mkQueue (set_status S_done (new_fields "steps" true 2)) [3%nat; 4%nat] 1%nat.

(** What a run leaves of a bucket [b] in the later bucket [b']: the pool
    has the same size, the queue the same tasks, the configuration and the
    status are unchanged, the cursor has not gone back and is still within
    the queue, and a rejection noted by [Promise.all] is still noted. *)
Definition bucket_kept (b b' : TaskBucket) : Prop :=
  length (taskLists b') = length (taskLists b)
  /\ tasks (b_queue b') = tasks (b_queue b)
  /\ parallel b' = parallel b /\ collect b' = collect b
  /\ clearing b' = clearing b
  /\ status (bfields b') = status (bfields b)
  /\ totalTicks (bfields b') = totalTicks (bfields b)
  /\ (taskIndex (b_queue b) <= taskIndex (b_queue b'))%nat
  /\ ((taskIndex (b_queue b) <= length (tasks (b_queue b)))%nat ->
      (taskIndex (b_queue b') <= length (tasks (b_queue b)))%nat)
  /\ (forall e, rejected b = Some e -> rejected b' = Some e).

(** The signals a task list re-emits for a child [c] whose action reported
    the ticks [rs] and ended with [out]. *)
Definition child_signals (c : nat) (rs : list Z) (out : Outcome Value)
  : list Signal :=
  child_execute c :: List.map (child_progress c) rs
  ++ [match out with
      | Return _ => child_done c
      | Throw e => child_error e c
      end].

(** The task [BuildUtil.one] makes of [{description, action, ticks}]. *)
Definition task_of (desc : option string) (a : Action) (tk : option Z) : Task :=
  match BuildUtil.has_ticks tk with
  | Some z => TaskUtil.createTicking a z desc
  | None => TaskUtil.create a desc
  end.

Definition is_plain (d : BuildTaskDefinition) : Prop :=
  match d with plain _ _ _ => True | built _ => False end.

(** A recorded call is what the action of that child of [us] produces on
    the recorded input, on some heap. *)
Definition sound_call (us : Units) (e : nat * Input * Outcome Value) : Prop :=
  exists t h1 h2 rs,
    us !! fst (fst e) = Some t /\ action t (snd (fst e)) h1 = (h2, rs, snd e).

(** [(item) => item], as handed to [BuildUtil.map], and a task that is
    running. *)
Definition item_echo : ItemAction := fun item h => (h, [], Return item).
Definition running_boom : Task :=
  mkTask (execute_begin (new_fields "no description given" false 0)) boom.

(** A task list as a bucket builds it: it hands its own input to its
    children and its controller is the bucket. *)
Definition pool_list (l : TaskList) : Prop :=
  isQueue l = true /\ controller l = ctl_bucket.
Definition pool_lists (b : TaskBucket) : Prop :=
  Forall (fun p => pool_list (lane p)) (taskLists b).
(** Such a list while it runs on the input [inp]: every child it has called
    was handed [inp] as it is. *)
Definition fed_raw (inp : Value) (p : Proc) : Prop :=
  pool_list (lane p) /\ input p = inp
  /\ Forall (fun e => snd (fst e) = in_raw inp) (calls p).
Definition pool_fed (inp : Value) (b : TaskBucket) : Prop :=
  Forall (fed_raw inp) (taskLists b).

(** The fields of a task after a call that ended with [out]. *)
Definition settled_as (out : Outcome Value) (f : Fields) : Prop :=
  match out with
  | Return v => status f = S_done /\ result f = v
  | Throw e => status f = S_error /\ error f = e
  end.

(** * Properties *)

(** ** The guard of [addTask] and [prependTask] *)

Lemma allowTaskAddition_terminal (q : TaskWithQueue) :
  allowTaskAddition q = negb (terminal (status (q_fields q))).
Proof. unfold allowTaskAddition. by destruct (status (q_fields q)). Qed.

(** C1 (as the code has it): the guard of [addTask] and [prependTask] is the
    wrong way round.  On a task list, a task with queue or a bucket whose
    status is ['created'] or ['execute'] both calls throw; once the status is
    ['done'] or ['error'] they add the task, at the end or at the cursor,
    and count one more tick.  (A bucket that is [clearing] adds the task
    whatever its status.) *)
Theorem addTask_guard_inverted (u : nat) (q : TaskWithQueue) (l : TaskList)
        (b : TaskBucket) :
  (if terminal (status (q_fields q))
   then addTask (allowTaskAddition q) u q = Return (grown (tasks q ++ [u]) q)
        /\ prependTask (allowTaskAddition q) u q
           = Return (grown (take (taskIndex q) (tasks q) ++ u :: drop (taskIndex q) (tasks q)) q)
   else addTask (allowTaskAddition q) u q = Throw cant_add
        /\ prependTask (allowTaskAddition q) u q = Throw cant_add)
  /\ (if terminal (status (lfields l))
      then list_addTask u l
           = Return (set_queue (grown (tasks (l_queue l) ++ [u]) (l_queue l)) l)
      else list_addTask u l = Throw cant_add
           /\ list_prependTask u l = Throw cant_add)
  /\ (if terminal (status (bfields b)) || clearing b
      then bucket_addTask u b
           = Return (set_bqueue (grown (tasks (b_queue b) ++ [u]) (b_queue b)) b)
      else bucket_addTask u b = Throw cant_add
           /\ bucket_prependTask u b = Throw cant_add).
Proof.
  unfold list_addTask, list_prependTask, bucket_addTask, bucket_prependTask,
    bucket_allowTaskAddition, lfields, bfields.
  rewrite !allowTaskAddition_terminal.
  repeat split.
  - by destruct (terminal (status (q_fields q))).
  - by destruct (terminal (status (q_fields (l_queue l)))).
  - by destruct (terminal (status (q_fields (b_queue b)))), (clearing b).
Qed.

(** A task list that has just been built refuses a task, and one that is
    done takes it. *)
Example addTask_on_created_throws :
  list_addTask 7 (new_list [] "steps" ctl_this false) = Throw cant_add.
Proof. reflexivity. Qed.

Example addTask_on_done_appends :
  let l := new_list [3%nat] "steps" ctl_this false in
  let l_done := set_lfields (set_status S_done (lfields l)) l in
  match list_addTask 7 l_done with
  | Return l' => tasks (l_queue l') = [3%nat; 7%nat] /\ totalTicks (lfields l') = 2
  | Throw _ => False
  end.
Proof. by vm_compute. Qed.

(** ** Task: [progress] and [execute] *)

Lemma emit_fields (s : Signal) (f : Fields) :
  let f' := fst (emit s f) in
  status f' = status f /\ result f' = result f /\ error f' = error f
  /\ ticks f' = ticks f /\ totalTicks f' = totalTicks f
  /\ errorListeners f' = errorListeners f
  /\ emitted f' = emitted f ++ [s].
Proof.
  unfold emit. destruct (is_error_signal s); [|done].
  by destruct (Nat.eqb _ _).
Qed.

Lemma progress_fields (z : Z) (f : Fields) :
  status (progress z f) = status f /\ result (progress z f) = result f
  /\ error (progress z f) = error f /\ ticks (progress z f) = z
  /\ totalTicks (progress z f) = totalTicks f
  /\ errorListeners (progress z f) = errorListeners f
  /\ errorOnce (progress z f) = errorOnce f
  /\ emitted (progress z f) = emitted f ++ [sig_progress z].
Proof. done. Qed.

Lemma last_cons_default {A : Type} (l : list A) (x d : A) :
  List.last (x :: l) d = List.last l x.
Proof.
  revert x d. induction l as [|y l IH]; intros x d; [done|].
  change (List.last (x :: y :: l) d) with (List.last (y :: l) d).
  by rewrite (IH y d), (IH y x).
Qed.

Lemma report_fields (rs : list Z) (f : Fields) :
  status (report rs f) = status f /\ result (report rs f) = result f
  /\ error (report rs f) = error f
  /\ ticks (report rs f) = List.last rs (ticks f)
  /\ errorListeners (report rs f) = errorListeners f
  /\ errorOnce (report rs f) = errorOnce f
  /\ emitted (report rs f) = emitted f ++ map sig_progress rs.
Proof.
  revert f. induction rs as [|r rs IH]; intros f.
  - unfold report. cbn. by rewrite app_nil_r.
  - unfold report. cbn [fold_left]. fold (report rs (progress r f)). destruct (IH (progress r f)) as (?&?&?&Ht&?&?&He).
    unfold report in *. split_and!; try done.
    + rewrite Ht. symmetry. apply last_cons_default.
    + rewrite He. cbn. by rewrite <- app_assoc.
Qed.

Lemma execute_unfold (inp : Input) (t : Task) (h : Heap) :
  execute inp t h =
  let '(h', rs, out) := action t inp h in
  let '(f3, o) := execute_settle out (report rs (execute_begin (fields t))) in
  (mkTask f3 (action t), h', o).
Proof. reflexivity. Qed.

(** What [execute] does when the action returns [v]. *)
Lemma execute_returns (inp : Input) (t : Task) (h h' : Heap) (rs : list Z)
      (v : Value) :
  action t inp h = (h', rs, Return v) ->
  exists f', execute inp t h = (mkTask f' (action t), h', Return v)
    /\ status f' = S_done /\ result f' = v /\ error f' = error (fields t)
    /\ ticks f' = List.last rs (ticks (fields t))
    /\ errorListeners f' = errorListeners (fields t)
    /\ emitted f' = emitted (fields t)
                    ++ sig_status S_execute :: map sig_progress rs ++ [sig_status S_done].
Proof.
  intros Ha. rewrite execute_unfold, Ha.
  pose proof (report_fields rs (execute_begin (fields t))) as Hrep.
  cbn in Hrep. destruct Hrep as (Hs&Hr&He&Ht&Hl&Ho&Hm).
  cbn. eexists. split; [reflexivity|]. cbn.
  rewrite Hm, He, Ht, Hl. cbn. split_and!; try done.
  by rewrite <- !app_assoc.
Qed.

(** What [execute] does when the action throws [e]: the error is stored and
    ['error'] is emitted; with a listener for ['error'] the status becomes
    ['error'] and [e] is thrown again, without one [emit] itself throws and
    the assignment of the status is not reached. *)
Lemma execute_throws (inp : Input) (t : Task) (h h' : Heap) (rs : list Z)
      (e : Value) :
  action t inp h = (h', rs, Throw e) ->
  exists f', execute inp t h
             = (mkTask f' (action t), h',
                Throw (if Nat.eqb (errorListeners (fields t) + errorOnce (fields t)) 0
                       then unhandled e else e))
    /\ status f' = (if Nat.eqb (errorListeners (fields t) + errorOnce (fields t)) 0
                    then S_execute else S_error)
    /\ error f' = e /\ result f' = result (fields t)
    /\ ticks f' = List.last rs (ticks (fields t))
    /\ errorListeners f' = errorListeners (fields t)
    /\ emitted f' = emitted (fields t)
                    ++ sig_status S_execute :: map sig_progress rs ++ [sig_error e].
Proof.
  intros Ha. rewrite execute_unfold, Ha.
  pose proof (report_fields rs (execute_begin (fields t))) as Hrep.
  cbn in Hrep. destruct Hrep as (Hs&Hr&He&Ht&Hl&Ho&Hm).
  cbn. unfold execute_catch, emit. cbn. rewrite Hl, Ho. cbn.
  destruct (Nat.eqb _ _); cbn; (eexists; split; [reflexivity|]); cbn;
    rewrite Hm, Hr, Ht, ?Hl; cbn; split_and!; try done;
    by rewrite <- !app_assoc.
Qed.

(** ** TaskList: the signals of a child re-emitted on the list *)

Lemma relabel_not_error (c : nat) (l : list Signal) :
  Forall (fun s => is_error_signal s = None) (omap (relabel c) l).
Proof.
  induction l as [|s l IH]; [constructor|].
  cbn. destruct s as [[]| | | | | | |]; cbn; try done; by constructor.
Qed.

Lemma relayed_Forall (P : Signal -> Prop) (k : nat) (l : list Signal) :
  Forall P l -> Forall P (relayed k l).
Proof.
  intros Hl. unfold relayed. apply Forall_flat_map.
  eapply Forall_impl; [exact Hl|]. intros s Hs. cbv beta.
  by apply Forall_replicate.
Qed.

Lemma relayed_not_error (k c : nat) (l : list Signal) :
  Forall (fun s => is_error_signal s = None) (relayed k (omap (relabel c) l)).
Proof. apply relayed_Forall, relabel_not_error. Qed.

Lemma list_emit_all (sigs : list Signal) (l : TaskList) :
  Forall (fun s => is_error_signal s = None) sigs ->
  fold_left (fun l s => list_emit s l) sigs l = emitted_more sigs l.
Proof.
  revert l. induction sigs as [|s sigs IH]; intros l Hs.
  - destruct l as [[[] ? ?] ? ? ? ? ?]. unfold emitted_more, set_lfields, lfields.
    cbn. by rewrite app_nil_r.
  - inversion Hs as [|? ? Hs1 Hs2]; subst. cbn [fold_left].
    rewrite IH by done.
    destruct l as [[[] ? ?] ? ? ? ? ?].
    unfold emitted_more, list_emit, set_lfields, lfields, emit. rewrite Hs1.
    cbn. by rewrite <- app_assoc.
Qed.

Lemma finish_throw (e : Value) (l : TaskList) (p : Proc) :
  let none := Nat.eqb (errorListeners (lfields l) + errorOnce (lfields l)) 0 in
  pc (finish (Throw e) l p) = pc_settled (Throw (if none then unhandled e else e))
  /\ status (lfields (lane (finish (Throw e) l p)))
     = (if none then status (lfields l) else S_error)
  /\ error (lfields (lane (finish (Throw e) l p))) = e
  /\ calls (finish (Throw e) l p) = calls p.
Proof.
  unfold finish, execute_settle, execute_catch, emit, lfields. cbn.
  by destruct (Nat.eqb _ _).
Qed.

Lemma finish_return (v : Value) (l : TaskList) (p : Proc) :
  pc (finish (Return v) l p) = pc_settled (Return v)
  /\ status (lfields (lane (finish (Return v) l p))) = S_done
  /\ result (lfields (lane (finish (Return v) l p))) = v
  /\ emitted (lfields (lane (finish (Return v) l p)))
     = emitted (lfields l) ++ [sig_status S_done]
  /\ empty (lane (finish (Return v) l p)) = empty l
  /\ tasks (l_queue (lane (finish (Return v) l p))) = tasks (l_queue l)
  /\ calls (finish (Return v) l p) = calls p.
Proof. done. Qed.

Section ListStep.
Context {B : Type} (onChild : Signal -> B -> B)
        (onEmpty : TaskList -> B -> TaskList * B * option Value).

Lemma list_step_child (p : Proc) (us : Units) (h : Heap) (b : B)
      (st last : Value) (c : nat) :
  pc p = pc_loop st last ->
  tasks (l_queue (lane p)) !! taskIndex (l_queue (lane p)) = Some c ->
  list_step onChild onEmpty p us h b = run_child onChild onEmpty st last c p us h b.
Proof.
  intros Hpc Hc. unfold list_step. rewrite Hpc, Hc.
  apply lookup_lt_Some in Hc. apply Nat.ltb_lt in Hc. by rewrite Hc.
Qed.

(** C8 (as the code has it): a child of a task list whose action throws
    [e] gets the status ['error'] and the error [e] and emits ['error']
    (the list listens for it), and [runTasks] of the list throws [e]; the
    [execute] of the list stores [e] too, but with no listener for
    ['error'] on the list its [emit] throws: the status of the list stays
    ['execute'], and what is thrown on is [e] only when [e] is an
    [Error]. *)
Theorem child_failure_in_list (p : Proc) (us : Units) (h h' : Heap) (b : B)
        (st last : Value) (c : nat) (t : Task) (rs : list Z) (e : Value) :
  pc p = pc_loop st last ->
  tasks (l_queue (lane p)) !! taskIndex (l_queue (lane p)) = Some c ->
  us !! c = Some t ->
  action t (child_input st last p) h = (h', rs, Throw e) ->
  let none := Nat.eqb (errorListeners (lfields (lane p))
                       + errorOnce (lfields (lane p))) 0 in
  let '(p', us', _, _) := list_step onChild onEmpty p us h b in
  (exists t', us' !! c = Some t' /\ status (fields t') = S_error
              /\ error (fields t') = e
              /\ List.last (emitted (fields t')) (sig_status S_created) = sig_error e)
  /\ List.last (calls p') (c, in_raw VNull, Return VNull)
     = (c, child_input st last p, Throw e)
  /\ error (lfields (lane p')) = e
  /\ pc p' = pc_settled (Throw (if none then unhandled e else e))
  /\ status (lfields (lane p'))
     = (if none then status (lfields (lane p)) else S_error).
Proof.
  intros Hpc Hc Hus Ha none. rewrite (list_step_child _ _ _ _ _ _ _ Hpc Hc).
  unfold run_child. rewrite Hus.
  destruct (execute_throws (child_input st last p)
              (mkTask (on_error (fields t)) (action t)) h h' rs e Ha)
    as (f' & Hex & Hst & Her & _ & _ & _ & Hem).
  cbv zeta. rewrite Hex. cbn in Hst, Hem. cbn -[finish].
  rewrite list_emit_all by apply relayed_not_error.
  match goal with |- context [finish (Throw e) ?l ?q] =>
    pose proof (finish_throw e l q) as Hf; cbn -[finish] in Hf;
    destruct Hf as (Hf1 & Hf2 & Hf3 & Hf4) end.
  rewrite Hf1, Hf2, Hf3, Hf4. split_and!; try done.
  - exists (mkTask f' (action t)). rewrite lookup_insert_eq. split_and!; try done.
    cbn. rewrite Hem, app_comm_cons, app_assoc. apply last_last.
  - apply last_last.
Qed.
End ListStep.

Lemma child_failure_in_list_witness :
  let '(p', us', _, _) :=
    list_step alone_onChild alone_onEmpty (fst failing_list) failing_units
              (snd failing_list) tt in
  (status ∘ fields <$> us' !! 0%nat) = Some S_error
  /\ pc p' = pc_settled (Throw (VError "boom"))
  /\ status (lfields (lane p')) = S_execute.
Proof.
  pose proof (child_failure_in_list alone_onChild alone_onEmpty
                (fst failing_list) failing_units (snd failing_list)
                (snd failing_list) tt (VRef 0) (VBool false) 0%nat
                (new_task boom) [] (VError "boom")
                eq_refl eq_refl eq_refl eq_refl) as H.
  cbv zeta in H.
  destruct (list_step alone_onChild alone_onEmpty (fst failing_list)
              failing_units (snd failing_list) tt) as [[[p' us'] h'] b'].
  destruct H as ((t' & Hu & Hs & _) & _ & _ & Hpc & Hst).
  split; [by rewrite Hu; cbn; rewrite Hs|]. split; [exact Hpc | exact Hst].
Defined.

(** A task on its own whose action throws: nothing listens for ['error'],
    so the status is still ['execute'] afterwards; a thrown value that is
    not an [Error] is replaced on the way. *)
Example raise_without_listener :
  let '(t', _, o) := execute (in_raw VNull) (new_task boom) ∅ in
  status (fields t') = S_execute /\ error (fields t') = VError "boom"
  /\ o = Throw (VError "boom").
Proof. by vm_compute. Qed.

Example raise_string_without_listener :
  let '(t', _, o) :=
    execute (in_raw VNull) (new_task (fun _ h => (h, [], Throw (VStr "oops")))) ∅ in
  status (fields t') = S_execute /\ error (fields t') = VStr "oops"
  /\ o = Throw (VError "Unhandled error.").
Proof. by vm_compute. Qed.

(** A failing child inside a task list of a bucket: the list rejects, the
    [Promise.all] of the bucket rejects and so does the bucket, each with
    the error of the child; only the child, which has a listener, gets the
    status ['error']. *)
Example failure_reaches_bucket :
  let '(b, us', _, pr) := bucket_execute [0%nat] VNull rerun_bucket failing_units ∅ in
  pr = Settled (Throw (VError "boom"))
  /\ (status ∘ fields <$> us' !! 0%nat) = Some S_error
  /\ ((fun p => (status (lfields (lane p)), pc p)) <$> taskLists b)
     = [(S_execute, pc_settled (Throw (VError "boom")))]
  /\ rejected b = Some (VError "boom")
  /\ status (bfields b) = S_execute /\ error (bfields b) = VError "boom".
Proof. by vm_compute. Qed.

(** ** Task: the life of a unit *)

Lemma announced_progress (rs : list Z) : announced (map sig_progress rs) = [].
Proof. by induction rs. Qed.

Lemma progress_ticks_progress (rs : list Z) :
  progress_ticks (map sig_progress rs) = rs.
Proof.
  unfold progress_ticks. induction rs as [|r rs IH]; [done|].
  cbn. by rewrite IH.
Qed.

(** C9 (amended): each call of [execute] announces ['execute'] and then,
    when the action returns, ['done'] with the result stored, or, when it
    throws, stores the error, emits ['error'] and (a listener for ['error']
    being registered) sets the status ['error']; it does so whatever the
    status was before.  [progress(z)] sets [ticks] to [z] and [toPromise] on
    a task that is not ['created'] only subscribes: neither changes status,
    result or error. *)
Theorem unit_lifecycle (t : Task) (h : Heap) (inp : Input) (z : Z) :
  (let '(t', _, o) := execute inp t h in
   let new := drop (length (emitted (fields t))) (emitted (fields t')) in
   match action t inp h with
   | (_, rs, Return v) =>
       announced new = [S_execute; S_done]
       /\ status (fields t') = S_done /\ result (fields t') = v
       /\ error (fields t') = error (fields t) /\ o = Return v
       /\ ticks (fields t') = List.last rs (ticks (fields t))
   | (_, rs, Throw e) =>
       announced new = [S_execute]
       /\ status (fields t')
          = (if Nat.eqb (errorListeners (fields t) + errorOnce (fields t)) 0
             then S_execute else S_error)
       /\ error (fields t') = e /\ result (fields t') = result (fields t)
       /\ ticks (fields t') = List.last rs (ticks (fields t))
   end)
  /\ (let t' := fst (apply_op (op_progress z) t h) in
      status (fields t') = status (fields t) /\ result (fields t') = result (fields t)
      /\ error (fields t') = error (fields t) /\ ticks (fields t') = z)
  /\ (let t' := fst (apply_op op_toPromise t h) in
      match status (fields t) with
      | S_created => True
      | _ => status (fields t') = status (fields t)
             /\ result (fields t') = result (fields t)
             /\ error (fields t') = error (fields t)
             /\ ticks (fields t') = ticks (fields t)
      end).
Proof.
  split_and!.
  - destruct (action t inp h) as [[h' rs] [v|e]] eqn:Ha.
    + destruct (execute_returns inp t h h' rs v Ha) as (f' & -> & ? & ? & ? & ? & _ & Hem).
      cbn. rewrite Hem, drop_app_length. unfold announced. cbn.
      rewrite omap_app. fold (announced (map sig_progress rs)).
      by rewrite announced_progress.
    + destruct (execute_throws inp t h h' rs e Ha) as (f' & -> & ? & ? & ? & ? & _ & Hem).
      cbn. rewrite Hem, drop_app_length. unfold announced. cbn.
      rewrite omap_app. fold (announced (map sig_progress rs)).
      by rewrite announced_progress.
  - done.
  - unfold apply_op, toPromise. by destruct (status (fields t)) eqn:Hs; cbn; rewrite ?Hs.
Qed.

(** C9, counterexample: a task that is done runs again when [execute] is
    called again, and its result is replaced; and [progress] lowers [ticks]
    of a ticking task when it is given a smaller value. *)
Lemma finished_unit_changes :
  (status (fields echo_done) = S_done /\ result (fields echo_done) = VNum 1
   /\ let t' := fst (apply_op (op_execute (in_raw (VNum 2))) echo_done ∅) in
      result (fields t') = VNum 2
      /\ announced (emitted (fields t')) = [S_execute; S_done; S_execute; S_done])
  /\ (let t5 := fst (apply_op (op_progress 5) ticking_task ∅) in
      let t3 := fst (apply_op (op_progress 3) t5 ∅) in
      isTicking (fields t5) = true /\ ticks (fields t5) = 5
      /\ ticks (fields t3) = 3).
Proof. by vm_compute. Qed.

(** ** TaskList: one turn *)

Section ListTurn.
Context {B : Type} (onChild : Signal -> B -> B)
        (onEmpty : TaskList -> B -> TaskList * B * option Value).

Lemma list_step_at_end (p : Proc) (us : Units) (h : Heap) (b : B)
      (st last : Value) :
  pc p = pc_loop st last ->
  (length (tasks (l_queue (lane p))) <= taskIndex (l_queue (lane p)))%nat ->
  list_step onChild onEmpty p us h b = (finish (Return last) (lane p) p, us, h, b).
Proof.
  intros Hpc Hle. unfold list_step. rewrite Hpc.
  apply Nat.ltb_ge in Hle. by rewrite Hle.
Qed.

Lemma list_step_settled (p : Proc) (us : Units) (h : Heap) (b : B) :
  is_settled (pc p) = true -> list_step onChild onEmpty p us h b = (p, us, h, b).
Proof. unfold list_step. by destruct (pc p). Qed.

Lemma list_steps_settled (n : nat) (p : Proc) (us : Units) (h : Heap) (b : B) :
  is_settled (pc p) = true -> list_steps onChild onEmpty n p us h b = (p, us, h, b).
Proof.
  intros Hp. induction n as [|n IH]; [done|].
  cbn [list_steps]. by rewrite list_step_settled.
Qed.

(** A paused list stays inside [stayIdle]; once [wait] is cleared it goes
    back to the loop test. *)
Lemma list_step_idle (p : Proc) (us : Units) (h : Heap) (b : B)
      (st last : Value) :
  pc p = pc_idle st last ->
  list_step onChild onEmpty p us h b
  = (if wait (lane p) then p
     else mkProc (lane p) (pc_loop st last) (input p) (calls p), us, h, b).
Proof. intros Hpc. unfold list_step. rewrite Hpc. by destruct (wait (lane p)). Qed.

Lemma list_steps_paused (n : nat) (p : Proc) (us : Units) (h : Heap) (b : B)
      (st last : Value) :
  pc p = pc_idle st last -> wait (lane p) = true ->
  list_steps onChild onEmpty n p us h b = (p, us, h, b).
Proof.
  intros Hpc Hw. induction n as [|n IH]; [done|].
  cbn [list_steps]. by rewrite (list_step_idle _ _ _ _ st last Hpc), Hw.
Qed.

(** C7 (amended): the child a task list runs receives the [input] of
    [runTasks] as it is when the list was built with [isQueue] (as the
    lists of a bucket are), and [{state, last, controller}] otherwise;
    [state] stays the same value from one iteration to the next and
    [last] becomes what the child returned. *)
Theorem child_receives (p : Proc) (us : Units) (h : Heap) (b : B)
        (st last : Value) (c : nat) (t : Task) :
  pc p = pc_loop st last ->
  tasks (l_queue (lane p)) !! taskIndex (l_queue (lane p)) = Some c ->
  us !! c = Some t ->
  let '(p', _, _, _) := list_step onChild onEmpty p us h b in
  exists o,
    calls p' = calls p ++ [(c, (if isQueue (lane p) then in_raw (input p)
                                else in_ctx st last (controller (lane p))), o)]
    /\ match pc p' with
       | pc_loop st' last' | pc_idle st' last' => st' = st /\ o = Return last'
       | pc_settled _ => True
       end.
Proof.
  intros Hpc Hc Hus. rewrite (list_step_child _ _ _ _ _ _ _ _ _ Hpc Hc).
  unfold run_child. rewrite Hus. cbv zeta.
  fold (child_input st last p).
  destruct (execute _ _ h) as [[t2 h'] [v|e]].
  - cbn -[finish list_progress]. destruct (_ <=? _)%nat.
    + destruct (onEmpty _ _) as [[l4 b2] [e|]].
      * unfold finish. destruct (execute_settle _ _). by eexists.
      * by eexists.
    + by eexists.
  - unfold finish. destruct (execute_settle _ _). by eexists.
Qed.
End ListTurn.

Lemma child_receives_witness :
  let '(p', _, _, _) :=
    list_step alone_onChild alone_onEmpty (fst failing_list) failing_units
              (snd failing_list) tt in
  exists o, calls p' = [(0%nat, in_ctx (VRef 0) (VBool false) ctl_this, o)].
Proof.
  pose proof (child_receives alone_onChild alone_onEmpty
                (fst failing_list) failing_units (snd failing_list) tt
                (VRef 0) (VBool false) 0%nat (new_task boom)
                eq_refl eq_refl eq_refl) as H.
  destruct (list_step alone_onChild alone_onEmpty (fst failing_list)
              failing_units (snd failing_list) tt) as [[[p' us'] h'] b'].
  destruct H as (o & Hcalls & _). exists o. exact Hcalls.
Defined.

(** C7, counterexample: the child of a task list built with [isQueue], as
    the lists of a bucket are, receives the input [5] itself and no
    [{state, last, controller}]. *)
Lemma queue_list_child_gets_raw_input :
  let '(p', _, _, _) :=
    list_step alone_onChild alone_onEmpty (fst queue_list) echo_units
              (snd queue_list) tt in
  calls p' = [(0%nat, in_raw (VNum 5), Return (VNum 5))]
  /\ forall st last ctl, fst <$> calls p' <> [(0%nat, in_ctx st last ctl)].
Proof. by vm_compute. Qed.

(** ** TaskList: the start of [runTasks] *)




(** ** TaskList: the idle loop *)

(** A paused list that has run its only child has emitted ['empty'], has
    [empty] set and stays in [stayIdle]; once resumed it finds no further
    task and returns the value of the last child. *)
Example paused_list_waits_then_returns :
  let '(p, us, h) :=
    run_list 5 VNull (pause (new_list [0%nat] "steps" ctl_this false)) two_units ∅ in
  pc p = pc_idle (VRef 0) (VNum 1) /\ empty (lane p) = true
  /\ last (emitted (lfields (lane p))) = Some sig_empty
  /\ let '(p', _, _, _) :=
       list_steps alone_onChild alone_onEmpty 2 (set_lane (resume (lane p)) p) us h tt in
     pc p' = pc_settled (Return (VNum 1)).
Proof. by vm_compute. Qed.

(** ** TaskList: an empty queue at the start *)

(** C2 (as the code has it): a task list whose queue is empty when
    [runTasks] starts, paused or not, never enters the loop: it emits no
    ['empty'], leaves [empty] false, does not wait, and its [execute]
    resolves at once with [false]. *)
Theorem empty_list_never_idles (n : nat) (inp : Value) (d : string)
        (c : Controller) (q w : bool) (us : Units) (h : Heap) :
  let '(p, us', _) := run_list (S n) inp (set_wait w (new_list [] d c q)) us h in
  pc p = pc_settled (Return (VBool false))
  /\ emitted (lfields (lane p)) = [sig_status S_execute; sig_status S_done]
  /\ empty (lane p) = false
  /\ wait (lane p) = w
  /\ us' = us.
Proof.
  unfold run_list, list_execute.
  destruct (initial_state inp h) as [st h1].
  cbn [list_steps].
  rewrite (list_step_at_end _ _ _ _ _ _ st (VBool false)); [|done|cbn; lia].
  by rewrite list_steps_settled.
Qed.

(** ** TaskBucket: the ['empty'] listener *)

Lemma checkDone_all_empty (b : TaskBucket) :
  forallb (fun p => empty (lane p)) (taskLists b) = true ->
  checkDone b
  = set_taskLists (map (fun p => set_lane (resume (lane p)) p) (taskLists b)) b.
Proof. intros H. unfold checkDone. by rewrite H. Qed.

Lemma checkDone_some_busy (b : TaskBucket) :
  forallb (fun p => empty (lane p)) (taskLists b) = false -> checkDone b = b.
Proof. intros H. unfold checkDone. by rewrite H. Qed.

(** C3 (as the code has it): when a task list of the pool emits ['empty']
    while the bucket still has a task to hand out, the bucket moves its
    cursor past that task and calls [addTask] on the list, which throws
    because the list is running: the list does not receive the task.  When
    no task is left, the bucket resumes every list if all of them have
    [empty] set, and does nothing otherwise. *)
Theorem feed_throws_on_running_list (i : nat) (l : TaskList) (b : TaskBucket)
        (u : nat) :
  terminal (status (lfields l)) = false ->
  (tasks (b_queue b) !! taskIndex (b_queue b) = Some u ->
   bucket_onEmpty i l b
   = (l, set_bqueue (mkQueue (bfields b) (tasks (b_queue b))
                             (S (taskIndex (b_queue b)))) b, Some cant_add))
  /\ (tasks (b_queue b) !! taskIndex (b_queue b) = None ->
      let b' := set_taskLists (alter (set_lane l) i (taskLists b)) b in
      snd (bucket_onEmpty i l b) = None
      /\ snd (fst (bucket_onEmpty i l b))
         = (if forallb (fun p => empty (lane p)) (taskLists b')
            then set_taskLists
                   (map (fun p => set_lane (resume (lane p)) p) (taskLists b')) b'
            else b')).
Proof.
  intros Hl. split.
  - intros Hu. unfold bucket_onEmpty. rewrite Hu.
    pose proof (lookup_lt_Some _ _ _ Hu) as Hlt.
    apply Nat.leb_gt in Hlt. rewrite Hlt.
    unfold list_addTask. rewrite allowTaskAddition_terminal.
    unfold lfields in Hl. by rewrite Hl.
  - intros Hu b'. unfold bucket_onEmpty.
    apply lookup_ge_None in Hu. apply Nat.leb_le in Hu. rewrite Hu. cbn.
    split; [done|]. fold b'. unfold checkDone. by destruct (forallb _ _).
Qed.

Lemma feed_throws_on_running_list_witness :
  bucket_onEmpty 0 running_list feeding_bucket
  = (running_list,
     set_bqueue (mkQueue (bfields feeding_bucket) [1%nat; 2%nat] 1%nat) feeding_bucket,
     Some cant_add).
Proof.
  exact (proj1 (feed_throws_on_running_list 0 running_list feeding_bucket 1%nat
                  eq_refl) eq_refl).
Defined.

(** The same inside a run: the list finishes its only child, emits
    ['empty'], and is rejected by the bucket's attempt to feed it. *)
Example fed_list_is_rejected :
  let '(b', us', _) := bucket_step 0 feeding_bucket echo_units (snd queue_list) in
  (pc <$> taskLists b' !! 0%nat) = Some (pc_settled (Throw cant_add))
  /\ (tasks ∘ l_queue ∘ lane <$> taskLists b' !! 0%nat) = Some [0%nat]
  /\ taskIndex (b_queue b') = 1%nat
  /\ rejected b' = Some cant_add.
Proof. by vm_compute. Qed.

(** ** TaskBucket: a run *)

Lemma list_execute_spec (inp : Value) (l : TaskList) (h : Heap) :
  list_execute inp l h
  = (mkProc (set_lfields (execute_begin (lfields l)) l)
            (pc_loop (fst (initial_state inp h)) (VBool false)) inp [],
     snd (initial_state inp h)).
Proof. unfold list_execute. by destruct (initial_state inp h). Qed.

Lemma execute_all_untouched (inp : Value) (ls : list TaskList) (h : Heap) :
  Forall (fun l => tasks (l_queue l) = []) ls ->
  Forall untouched (fst (execute_all inp ls h))
  /\ length (fst (execute_all inp ls h)) = length ls.
Proof.
  revert h. induction ls as [|l ls IH]; intros h Hls; [by split; constructor|].
  inversion Hls as [|? ? Hl Hrest]; subst. cbn [execute_all].
  rewrite list_execute_spec.
  destruct (IH (snd (initial_state inp h)) Hrest) as [IH1 IH2].
  destruct (execute_all inp ls _) as [ps h2]. cbn in *. split; [|by rewrite IH2].
  constructor; [|done]. split_and!; [done|done|]. left. by eexists _, _.
Qed.

Lemma spawn_new_bucket (ts : list nat) (par : Z) (d : string)
      (col : option Collect) (f : Fields) :
  let b := set_bfields f (new_bucket ts par d col) in
  Forall (fun l => tasks (l_queue l) = []) (spawn b)
  /\ length (spawn b) = Z.to_nat par.
Proof.
  unfold spawn. cbn. rewrite Z.sub_0_r. split.
  - apply Forall_forall. intros l Hl. apply elem_of_replicate in Hl.
    by destruct Hl as [-> _].
  - by rewrite length_replicate.
Qed.

Lemma bucket_step_untouched (i : nat) (b : TaskBucket) (us : Units) (h : Heap) :
  Forall untouched (taskLists b) -> rejected b = None ->
  exists b', bucket_step i b us h = (b', us, h)
    /\ Forall untouched (taskLists b') /\ rejected b' = None
    /\ b_queue b' = b_queue b /\ collect b' = collect b
    /\ length (taskLists b') = length (taskLists b)
    /\ (forall p, taskLists b !! i = Some p -> exists p',
          taskLists b' !! i = Some p' /\ resolved p' = true)
    /\ (forall j p, taskLists b !! j = Some p -> resolved p = true ->
          taskLists b' !! j = Some p).
Proof.
  intros Hall Hrej. unfold bucket_step.
  destruct (taskLists b !! i) as [p|] eqn:Hp.
  2:{ exists b. split_and!; try done. }
  pose proof (Forall_lookup_1 _ _ _ _ Hall Hp) as (Ht & Hc & Hpc).
  destruct Hpc as [(st & last & Hpc)|(v & Hpc)].
  - rewrite (list_step_at_end _ _ _ _ _ _ st last Hpc) by (rewrite Ht; cbn; lia).
    cbn. eexists. split; [reflexivity|]. cbn.
    split_and!; try done.
    + apply Forall_insert; [done|]. split_and!; [done|done|]. right. by eexists.
    + by rewrite length_insert.
    + intros p0 _. eexists. split.
      * rewrite list_lookup_insert_eq; [done|]. by apply lookup_lt_Some in Hp.
      * done.
    + intros j p0 Hj Hres. destruct (decide (i = j)) as [->|Hne].
      * rewrite Hp in Hj. injection Hj as <-. unfold resolved in Hres.
        by rewrite Hpc in Hres.
      * by rewrite list_lookup_insert_ne.
  - rewrite list_step_settled by by rewrite Hpc.
    rewrite Hpc. cbn. rewrite list_insert_id by done.
    exists b. destruct b. cbn in *. split_and!; try done.
    intros p0 [= <-]. exists p. split; [done|]. unfold resolved. by rewrite Hpc.
Qed.


Lemma bucket_steps_untouched (sched : list nat) (b : TaskBucket) (us : Units)
      (h : Heap) :
  Forall untouched (taskLists b) -> rejected b = None ->
  exists b', bucket_steps sched b us h = (b', us, h)
    /\ Forall untouched (taskLists b') /\ rejected b' = None
    /\ b_queue b' = b_queue b /\ collect b' = collect b
    /\ length (taskLists b') = length (taskLists b).
Proof.
  revert b. induction sched as [|i sched IH]; intros b Hall Hrej.
  - by exists b.
  - cbn [bucket_steps].
    destruct (bucket_step_untouched i b us h Hall Hrej)
      as (b1 & -> & Hall1 & Hrej1 & Hq1 & Hc1 & Hlen1 & _).
    destruct (IH b1 Hall1 Hrej1) as (b2 & -> & Hall2 & Hrej2 & Hq2 & Hc2 & Hlen2).
    exists b2. split_and!; try done; congruence.
Qed.

(** C4 (as the code has it): a bucket that is run for the first time hands
    none of its tasks to a task list and runs none of them, whatever the
    order in which its task lists take their turns: the task lists of the
    pool start with an empty queue, so none of them emits ['empty'], and
    the tasks are left as they were. *)
Theorem bucket_runs_no_unit (ts : list nat) (par : Z) (d : string)
        (col : option Collect) (sched : list nat) (inp : Value) (us : Units)
        (h : Heap) :
  let '(b, us', _, _) := bucket_execute sched inp (new_bucket ts par d col) us h in
  us' = us
  /\ length (taskLists b) = Z.to_nat par
  /\ Forall (fun p => tasks (l_queue (lane p)) = [] /\ calls p = []) (taskLists b)
  /\ taskIndex (b_queue b) = 0%nat.
Proof.
  unfold bucket_execute.
  set (b1 := set_bfields _ (new_bucket ts par d col)).
  destruct (spawn_new_bucket ts par d col (execute_begin (bfields (new_bucket ts par d col))))
    as [Hsp Hlen]. fold b1 in Hsp, Hlen.
  destruct (execute_all_untouched inp (spawn b1) h Hsp) as [Hall Hl].
  destruct (execute_all inp (spawn b1) h) as [ps h1]. cbn [fst] in Hall, Hl.
  destruct (bucket_steps_untouched sched (set_rejected None (set_taskLists ps b1))
              us h1 Hall eq_refl) as (b3 & -> & Hall3 & Hrej3 & Hq3 & Hc3 & Hlen3).
  assert (Hfin : length (taskLists b3) = Z.to_nat par
                 /\ Forall (fun p => tasks (l_queue (lane p)) = [] /\ calls p = [])
                           (taskLists b3)
                 /\ taskIndex (b_queue b3) = 0%nat).
  { split_and!.
    - rewrite Hlen3. cbn. congruence.
    - eapply Forall_impl; [exact Hall3|]. by intros p (? & ? & _).
    - by rewrite Hq3. }
  destruct (bucket_collect inp b3 us h1) as [h3 [|o]]; [done|].
  destruct (execute_settle o (bfields b3)) as [f o']. by destruct b3, b_queue0.
Qed.

(** A bucket of two tasks with one task list: the run completes with the
    results of tasks that never ran. *)
Example bucket_completes_without_running :
  let us := <[1%nat := new_task return_one]> echo_units in
  let '(b, us', _, pr) :=
    bucket_execute [0%nat] VNull (new_bucket [0%nat; 1%nat] 1 "Hey!" None) us ∅ in
  pr = Settled (Return (VArray [VUndefined; VUndefined]))
  /\ status (bfields b) = S_done
  /\ (status ∘ fields <$> us' !! 0%nat) = Some S_created
  /\ (status ∘ fields <$> us' !! 1%nat) = Some S_created
  /\ emitted (bfields b) = [sig_status S_execute; sig_status S_done].
Proof. by vm_compute. Qed.

(** ** TaskList: a run in which every child returns *)

Lemma progress_ticks_relayed (k c : nat) (l : list Signal) :
  progress_ticks (relayed k (omap (relabel c) l)) = [].
Proof.
  assert (Hrep : forall s s', relabel c s = Some s' ->
                   progress_ticks (replicate k s') = []).
  { intros s s' Hs. unfold progress_ticks. induction k as [|k IH]; [done|].
    cbn. rewrite IH. by destruct s as [[]| | | | | | |]; simplify_eq/=. }
  unfold relayed. induction l as [|s l IH]; [done|].
  cbn. destruct (relabel c s) as [s'|] eqn:Hs; [|done].
  cbn. unfold progress_ticks in *. by rewrite omap_app, IH, (Hrep s s' Hs).
Qed.

Lemma progress_ticks_app (l1 l2 : list Signal) :
  progress_ticks (l1 ++ l2) = progress_ticks l1 ++ progress_ticks l2.
Proof. apply omap_app. Qed.

Lemma all_return_insert (ts : list nat) (us : Units) (c : nat) (t : Task)
      (f : Fields) :
  us !! c = Some t -> all_return ts us ->
  all_return ts (<[c := mkTask f (action t)]> us).
Proof.
  intros Hc Hall. eapply Forall_impl; [exact Hall|].
  intros c' (t' & Hc' & Hr). destruct (decide (c = c')) as [->|Hne].
  - rewrite lookup_insert_eq. rewrite Hc in Hc'. injection Hc' as <-.
    by eexists.
  - rewrite lookup_insert_ne by done. by eexists.
Qed.

(** One iteration of the loop on a child that returns [v], nobody
    listening to the list. *)
Lemma alone_child_step (p : Proc) (us : Units) (h h' : Heap) (st prev : Value)
      (c : nat) (t : Task) (rs : list Z) (v : Value) :
  pc p = pc_loop st prev ->
  tasks (l_queue (lane p)) !! taskIndex (l_queue (lane p)) = Some c ->
  us !! c = Some t ->
  action t (child_input st prev p) h = (h', rs, Return v) ->
  exists f' sigs,
    let l3 := list_progress
                (emitted_more sigs (listen c (set_empty false (lane p)))) in
    let at_end := (length (tasks (l_queue (lane p))) <=? S (taskIndex (l_queue (lane p))))%nat in
    list_step alone_onChild alone_onEmpty p us h tt
    = (mkProc (if at_end then set_empty true (list_emit sig_empty l3) else l3)
              (if at_end then pc_idle st v else pc_loop st v)
              (input p)
              (calls p ++ [(c, child_input st prev p, Return v)]),
       <[c := mkTask f' (action t)]> us, h', tt)
    /\ result f' = v /\ status f' = S_done /\ progress_ticks sigs = [].
Proof.
  intros Hpc Hc Hus Ha.
  rewrite (list_step_child _ _ _ _ _ _ _ _ _ Hpc Hc).
  unfold run_child. rewrite Hus. cbv zeta.
  destruct (execute_returns (child_input st prev p)
              (mkTask (on_error (fields t)) (action t)) h h' rs v Ha)
    as (f' & Hex & Hst & Hres & _).
  rewrite Hex. cbn -[list_progress list_emit child_input].
  rewrite list_emit_all by apply relayed_not_error.
  exists f', (relayed (listeners_on c (listen c (set_empty false (lane p))))
                (omap (relabel c) (drop (length (emitted (fields t))) (emitted f')))).
  cbv zeta. split; [|by rewrite progress_ticks_relayed].
  destruct (fold_left _ _ tt).
  destruct (lane p) as [[f tsq idx] w e q ctl ls]. cbn -[child_input relayed].
  by destruct (_ <=? _)%nat.
Qed.

Lemma stepped_list_fields (l : TaskList) (c : nat) (sigs : list Signal) :
  let l3 := list_progress (emitted_more sigs (listen c (set_empty false l))) in
  let l4 := set_empty true (list_emit sig_empty l3) in
  let i := taskIndex (l_queue l) in
  (tasks (l_queue l3) = tasks (l_queue l) /\ taskIndex (l_queue l3) = S i
   /\ wait l3 = wait l /\ isQueue l3 = isQueue l /\ controller l3 = controller l
   /\ emitted (lfields l3) = emitted (lfields l) ++ sigs ++ [sig_progress (Z.of_nat i)])
  /\ (tasks (l_queue l4) = tasks (l_queue l) /\ taskIndex (l_queue l4) = S i
      /\ wait l4 = wait l /\ isQueue l4 = isQueue l /\ controller l4 = controller l
      /\ emitted (lfields l4)
         = emitted (lfields l) ++ sigs ++ [sig_progress (Z.of_nat i); sig_empty]
      /\ empty l4 = true).
Proof.
  destruct l as [[f tsq idx] w e q ctl ls]. cbn.
  split_and!; try done; rewrite <- ?app_assoc; done.
Qed.

Lemma list_steps_S {B : Type} (onChild : Signal -> B -> B)
      (onEmpty : TaskList -> B -> TaskList * B * option Value)
      (n : nat) (p p1 : Proc) (us us1 : Units) (h h1 : Heap) (b b1 : B) :
  list_step onChild onEmpty p us h b = (p1, us1, h1, b1) ->
  list_steps onChild onEmpty (S n) p us h b
  = list_steps onChild onEmpty n p1 us1 h1 b1.
Proof. intros H. cbn [list_steps]. by rewrite H. Qed.

(** The loop of [runTasks] from the cursor [i] on, nobody listening and
    nobody pausing the list. *)
Lemma alone_loop (ts : list nat) (ctl : Controller) (q : bool) (inp st : Value) :
  forall (rest : list nat) (i : nat) (p : Proc) (us : Units) (h : Heap)
         (prev : Value),
    drop i ts = rest ->
    pc p = pc_loop st prev ->
    tasks (l_queue (lane p)) = ts -> taskIndex (l_queue (lane p)) = i ->
    wait (lane p) = false -> isQueue (lane p) = q -> input p = inp ->
    controller (lane p) = ctl ->
    all_return ts us ->
    exists n p' us' h' cs final,
      list_steps alone_onChild alone_onEmpty n p us h tt = (p', us', h', tt)
      /\ pc p' = pc_settled (Return final)
      /\ calls p' = calls p ++ cs
      /\ chained (list_input q inp st ctl) prev rest cs final
      /\ progress_ticks (emitted (lfields (lane p')))
         = progress_ticks (emitted (lfields (lane p)))
           ++ map Z.of_nat (seq i (length rest))
      /\ (forall c, last rest = Some c ->
          exists t', us' !! c = Some t' /\ result (fields t') = final)
      /\ (rest = [] -> us' = us)
      /\ status (lfields (lane p')) = S_done
      /\ result (lfields (lane p')) = final.
Proof.
  induction rest as [|c rest IH];
    intros i p us h prev Hdrop Hpc Hts Hi Hw Hq Hinp Hctl Hall.
  - exists 1%nat. cbn [list_steps].
    rewrite (list_step_at_end _ _ _ _ _ _ st prev Hpc).
    2:{ rewrite Hts, Hi. by apply drop_nil_inv. }
    eexists _, _, _, [], prev. split; [reflexivity|].
    destruct (finish_return prev (lane p) p) as (-> & -> & -> & -> & _ & _ & ->).
    rewrite app_nil_r, progress_ticks_app. cbn. rewrite app_nil_r.
    split_and!; done.
  - assert (Hc : ts !! i = Some c).
    { rewrite <- (Nat.add_0_r i), <- lookup_drop, Hdrop. done. }
    assert (Hrest : drop (S i) ts = rest).
    { rewrite (drop_S _ _ _ Hc) in Hdrop. by injection Hdrop. }
    assert (Hlen : length ts = (i + S (length rest))%nat).
    { pose proof (length_drop ts i) as Hl. rewrite Hdrop in Hl. cbn in Hl.
      apply lookup_lt_Some in Hc. lia. }
    assert (Hin : child_input st prev p = list_input q inp st ctl prev).
    { unfold child_input, list_input. by rewrite Hq, Hinp, Hctl. }
    destruct (proj1 (Forall_forall _ _) Hall c) as (t & Hus & Hret).
    { eapply list_elem_of_lookup_2. exact Hc. }
    destruct (Hret (child_input st prev p) h) as (h1 & rs & v & Ha).
    destruct (alone_child_step p us h h1 st prev c t rs v Hpc)
      as (f' & sigs & Hstep & Hres & Hst & Hsig);
      [by rewrite Hts, Hi|done|done|].
    cbv zeta in Hstep. rewrite Hin, Hts, Hi, Hlen in Hstep.
    destruct (stepped_list_fields (lane p) c sigs)
      as [(H3t & H3i & H3w & H3q & H3c & H3e) (H4t & H4i & H4w & H4q & H4c & H4e & _)].
    rewrite Hi in H3e, H4e, H3i, H4i.
    pose proof (all_return_insert ts us c t f' Hus Hall) as Hall1.
    destruct rest as [|c2 rest].
    + (* the last child: the list idles once, then returns *)
      assert (Hend : (i + S (length (@nil nat)) <=? S i)%nat = true)
        by (apply Nat.leb_le; cbn; lia).
      rewrite Hend in Hstep.
      match type of Hstep with _ = (?p1, _, _, _) => set (p1' := p1) in * end.
      assert (Hidle : list_step alone_onChild alone_onEmpty p1'
                        (<[c := mkTask f' (action t)]> us) h1 tt
                      = (mkProc (lane p1') (pc_loop st v) (input p1') (calls p1'),
                         <[c := mkTask f' (action t)]> us, h1, tt)).
      { rewrite (list_step_idle _ _ _ _ _ _ st v) by done.
        unfold p1' at 1. cbn [lane]. by rewrite H4w, Hw. }
      destruct (IH (S i) (mkProc (lane p1') (pc_loop st v) (input p1') (calls p1'))
                  (<[c := mkTask f' (action t)]> us) h1 v)
        as (n & p' & us' & h' & cs & final & Hrun & Hpc' & Hcalls & Hch & Hticks
            & _ & Hsame & Hsd & Hrf);
        try done; try (cbn; congruence).
      exists (S (S n)), p', us', h',
        ((c, list_input q inp st ctl prev, Return v) :: cs), final.
      rewrite (list_steps_S _ _ _ _ _ _ _ _ _ _ _ Hstep).
      rewrite (list_steps_S _ _ _ _ _ _ _ _ _ _ _ Hidle).
      split; [done|]. split; [done|].
      destruct cs as [|? cs]; [|by destruct p0 as [[? ?] ?]]. cbn in Hch. subst final.
      split_and!; try done.
      * rewrite Hcalls. cbn. by rewrite app_nil_r.
      * cbn. split_and!; try done. by exists v.
      * rewrite Hticks. cbn [lane]. unfold p1'. cbn [lane]. rewrite H4e.
        rewrite !progress_ticks_app, Hsig. cbn. by rewrite app_nil_r.
      * intros c' [= <-]. rewrite (Hsame eq_refl), lookup_insert_eq.
        by eexists.
    + (* more children follow *)
      assert (Hend : (i + S (length (c2 :: rest)) <=? S i)%nat = false)
        by (apply Nat.leb_gt; cbn; lia).
      rewrite Hend in Hstep.
      match type of Hstep with _ = (?p1, _, _, _) => set (p1' := p1) in * end.
      destruct (IH (S i) p1' (<[c := mkTask f' (action t)]> us) h1 v)
        as (n & p' & us' & h' & cs & final & Hrun & Hpc' & Hcalls & Hch & Hticks
            & Hlast & _ & Hsd & Hrf);
        try done; try (cbn; congruence).
      exists (S n), p', us', h',
        ((c, list_input q inp st ctl prev, Return v) :: cs), final.
      rewrite (list_steps_S _ _ _ _ _ _ _ _ _ _ _ Hstep).
      split_and!; try done.
      * rewrite Hcalls. unfold p1'. cbn [calls]. by rewrite <- app_assoc.
      * cbn. split_and!; try done. by exists v.
      * rewrite Hticks. unfold p1'. cbn [lane]. rewrite H3e.
        rewrite !progress_ticks_app, Hsig. cbn. by rewrite <- app_assoc.
Qed.

Lemma run_list_all_return (ts : list nat) (d : string) (ctl : Controller)
      (q : bool) (inp : Value) (us : Units) (h : Heap) :
  all_return ts us ->
  exists n p us' h' final,
    run_list n inp (new_list ts d ctl q) us h = (p, us', h')
    /\ pc p = pc_settled (Return final)
    /\ chained (list_input q inp (fst (initial_state inp h)) ctl)
               (VBool false) ts (calls p) final
    /\ progress_ticks (emitted (lfields (lane p))) = map Z.of_nat (seq 0 (length ts))
    /\ (forall c, last ts = Some c ->
        exists t', us' !! c = Some t' /\ result (fields t') = final)
    /\ status (lfields (lane p)) = S_done
    /\ result (lfields (lane p)) = final.
Proof.
  intros Hall. unfold run_list. rewrite list_execute_spec.
  destruct (alone_loop ts ctl q inp (fst (initial_state inp h)) ts 0
              (mkProc (set_lfields (execute_begin (lfields (new_list ts d ctl q)))
                                   (new_list ts d ctl q))
                      (pc_loop (fst (initial_state inp h)) (VBool false)) inp [])
              us (snd (initial_state inp h)) (VBool false))
    as (n & p' & us' & h' & cs & final & Hrun & Hpc & Hcalls & Hch & Hticks
        & Hlast & _ & Hsd & Hrf);
    try done.
  exists n, p', us', h', final. rewrite Hrun. cbn in Hcalls. subst cs.
  split_and!; done.
Qed.

Lemma chained_refs (mk : Value -> Input) (ts : list nat) :
  forall prev cs final,
    chained mk prev ts cs final -> (fun e => fst (fst e)) <$> cs = ts.
Proof.
  induction ts as [|c ts IH]; intros prev [|[[c' i] o] cs] final H; try done.
  destruct H as (-> & _ & v & _ & H). cbn. f_equal. by eapply IH.
Qed.

Lemma chained_first (mk : Value -> Input) (ts : list nat)
      (prev : Value) (cs : list (nat * Input * Outcome Value)) (final : Value)
      (e : nat * Input * Outcome Value) :
  chained mk prev ts cs final -> cs !! 0%nat = Some e ->
  snd (fst e) = mk prev.
Proof.
  destruct ts as [|c ts], cs as [|[[c' i] o] cs]; try done.
  intros (_ & -> & _) [= <-]. done.
Qed.

Lemma chained_next (mk : Value -> Input) (ts : list nat) :
  forall prev cs final k e e',
    chained mk prev ts cs final ->
    cs !! k = Some e -> cs !! S k = Some e' ->
    exists v, call_result (snd e) = Some v /\ snd (fst e') = mk v.
Proof.
  induction ts as [|c ts IH]; intros prev [|[[c' i] o] cs] final k e e' H He He';
    try done.
  destruct H as (-> & -> & v & -> & H). destruct k as [|k].
  - injection He as <-. cbn in He'. exists v. split; [done|].
    by rewrite (chained_first _ _ _ _ _ _ H He').
  - cbn in He, He'. by eapply IH.
Qed.

Lemma chained_last (mk : Value -> Input) (ts : list nat) :
  forall prev cs final,
    chained mk prev ts cs final -> ts <> [] ->
    exists e, last cs = Some e /\ call_result (snd e) = Some final.
Proof.
  induction ts as [|c ts IH]; intros prev [|[[c' i] o] cs] final H Hne; try done.
  destruct H as (-> & -> & v & -> & H). destruct ts as [|c2 ts].
  - destruct cs; [|done]. cbn in H. subst. by eexists.
  - destruct (IH v cs final H) as (e & He & Hr); [done|].
    exists e. split; [|done]. destruct cs; [done|]. by rewrite last_cons, He.
Qed.

(** ** TaskList: the run the specification describes *)

Lemma threaded_insert (mk : Value -> Input) (us : Units) (c : nat) (t : Task)
      (f : Fields) (ts : list nat) :
  us !! c = Some t ->
  forall prev h,
    threaded mk (<[c := mkTask f (action t)]> us) ts prev h
    = threaded mk us ts prev h.
Proof.
  intros Hc. induction ts as [|c' ts IH]; intros prev h; [done|].
  cbn [threaded]. destruct (decide (c = c')) as [<-|Hne].
  - rewrite lookup_insert_eq, Hc. cbn [action].
    destruct (action t (mk prev) h) as [[h' rs] [v|e]]; [|done]. by rewrite IH.
  - rewrite lookup_insert_ne by done. destruct (us !! c') as [t'|]; [|done].
    destruct (action t' (mk prev) h) as [[h' rs] [v|e]]; [|done]. by rewrite IH.
Qed.

Lemma threaded_chained (mk : Value -> Input) (us : Units) (ts : list nat) :
  forall prev h cs final hf,
    threaded mk us ts prev h = Some (cs, final, hf) ->
    chained mk prev ts cs final.
Proof.
  induction ts as [|c ts IH]; intros prev h cs final hf Hthr.
  - cbn in Hthr. by injection Hthr as <- <- _.
  - cbn [threaded] in Hthr. destruct (us !! c) as [t|]; [|done].
    destruct (action t (mk prev) h) as [[h' rs] [v|e]]; [|done].
    destruct (threaded mk us ts v h') as [[[cs1 final1] hf1]|] eqn:Hrest; [|done].
    injection Hthr as <- <- <-. cbn. split_and!; try done.
    exists v. split; [done|]. by eapply IH.
Qed.

(** The loop of [runTasks] from the cursor [i] on, nobody listening and
    nobody pausing the list, follows the run the specification
    describes. *)
Lemma threaded_loop (ts : list nat) (ctl : Controller) (q : bool) (inp st : Value) :
  forall (rest : list nat) (i : nat) (p : Proc) (us : Units) (h : Heap)
         (prev : Value) (cs : list (nat * Input * Outcome Value))
         (final : Value) (hf : Heap),
    drop i ts = rest ->
    pc p = pc_loop st prev ->
    tasks (l_queue (lane p)) = ts -> taskIndex (l_queue (lane p)) = i ->
    wait (lane p) = false -> isQueue (lane p) = q -> input p = inp ->
    controller (lane p) = ctl ->
    threaded (list_input q inp st ctl) us rest prev h = Some (cs, final, hf) ->
    exists n p' us',
      list_steps alone_onChild alone_onEmpty n p us h tt = (p', us', hf, tt)
      /\ pc p' = pc_settled (Return final)
      /\ calls p' = calls p ++ cs
      /\ (forall c, last rest = Some c ->
          exists t', us' !! c = Some t' /\ result (fields t') = final)
      /\ (rest = [] -> us' = us)
      /\ status (lfields (lane p')) = S_done
      /\ result (lfields (lane p')) = final.
Proof.
  induction rest as [|c rest IH];
    intros i p us h prev cs final hf Hdrop Hpc Hts Hi Hw Hq Hinp Hctl Hthr.
  - cbn in Hthr. injection Hthr as <- <- <-.
    exists 1%nat. cbn [list_steps].
    rewrite (list_step_at_end _ _ _ _ _ _ st prev Hpc).
    2:{ rewrite Hts, Hi. by apply drop_nil_inv. }
    eexists _, _. split; [reflexivity|].
    destruct (finish_return prev (lane p) p) as (-> & -> & -> & _ & _ & _ & ->).
    rewrite app_nil_r. split_and!; done.
  - assert (Hc : ts !! i = Some c).
    { rewrite <- (Nat.add_0_r i), <- lookup_drop, Hdrop. done. }
    assert (Hrest : drop (S i) ts = rest).
    { rewrite (drop_S _ _ _ Hc) in Hdrop. by injection Hdrop. }
    assert (Hlen : length ts = (i + S (length rest))%nat).
    { pose proof (length_drop ts i) as Hl. rewrite Hdrop in Hl. cbn in Hl.
      apply lookup_lt_Some in Hc. lia. }
    assert (Hin : child_input st prev p = list_input q inp st ctl prev).
    { unfold child_input, list_input. by rewrite Hq, Hinp, Hctl. }
    cbn [threaded] in Hthr. destruct (us !! c) as [t|] eqn:Hus; [|done].
    destruct (action t (list_input q inp st ctl prev) h) as [[h1 rs] [v|e]] eqn:Ha;
      [|done].
    destruct (threaded (list_input q inp st ctl) us rest v h1)
      as [[[cs1 final1] hf1]|] eqn:Hnext; [|done].
    injection Hthr as <- <- <-.
    rewrite <- Hin in Ha.
    destruct (alone_child_step p us h h1 st prev c t rs v Hpc)
      as (f' & sigs & Hstep & Hres & Hst & Hsig);
      [by rewrite Hts, Hi|done|done|].
    cbv zeta in Hstep. rewrite Hin, Hts, Hi, Hlen in Hstep.
    destruct (stepped_list_fields (lane p) c sigs)
      as [(H3t & H3i & H3w & H3q & H3c & H3e) (H4t & H4i & H4w & H4q & H4c & H4e & _)].
    rewrite Hi in H3i, H4i.
    rewrite <- (threaded_insert _ us c t f' rest Hus) in Hnext.
    destruct rest as [|c2 rest].
    + (* the last child: the list idles once, then returns *)
      assert (Hend : (i + S (length (@nil nat)) <=? S i)%nat = true)
        by (apply Nat.leb_le; cbn; lia).
      rewrite Hend in Hstep.
      match type of Hstep with _ = (?p1, _, _, _) => set (p1' := p1) in * end.
      assert (Hidle : list_step alone_onChild alone_onEmpty p1'
                        (<[c := mkTask f' (action t)]> us) h1 tt
                      = (mkProc (lane p1') (pc_loop st v) (input p1') (calls p1'),
                         <[c := mkTask f' (action t)]> us, h1, tt)).
      { rewrite (list_step_idle _ _ _ _ _ _ st v) by done.
        unfold p1' at 1. cbn [lane]. by rewrite H4w, Hw. }
      destruct (IH (S i) (mkProc (lane p1') (pc_loop st v) (input p1') (calls p1'))
                  (<[c := mkTask f' (action t)]> us) h1 v cs1 final1 hf1)
        as (n & p' & us' & Hrun & Hpc' & Hcalls & _ & Hsame & Hsd & Hrf);
        try done; try (cbn; congruence).
      exists (S (S n)), p', us'.
      rewrite (list_steps_S _ _ _ _ _ _ _ _ _ _ _ Hstep).
      rewrite (list_steps_S _ _ _ _ _ _ _ _ _ _ _ Hidle).
      cbn in Hnext. injection Hnext as <- <- <-.
      split_and!; try done.
      * rewrite Hcalls. cbn. by rewrite app_nil_r.
      * intros c' [= <-]. rewrite (Hsame eq_refl), lookup_insert_eq.
        by eexists.
    + (* more children follow *)
      assert (Hend : (i + S (length (c2 :: rest)) <=? S i)%nat = false)
        by (apply Nat.leb_gt; cbn; lia).
      rewrite Hend in Hstep.
      match type of Hstep with _ = (?p1, _, _, _) => set (p1' := p1) in * end.
      destruct (IH (S i) p1' (<[c := mkTask f' (action t)]> us) h1 v cs1 final1 hf1)
        as (n & p' & us' & Hrun & Hpc' & Hcalls & Hlast & _ & Hsd & Hrf);
        try done; try (cbn; congruence).
      exists (S n), p', us'.
      rewrite (list_steps_S _ _ _ _ _ _ _ _ _ _ _ Hstep).
      split_and!; try done.
      rewrite Hcalls. unfold p1'. cbn [calls]. by rewrite <- app_assoc.
Qed.

(** C5 (as the code has it): a task list built from a non-empty queue of
    tasks runs as the specification describes whenever every child of that
    run returns - the children are called once each in the order of the
    queue, each on the heap the one before it left, and the list resolves,
    ['done'], with the value the last child returned, which is the [result]
    stored in that child - but what a child sees of the child before it
    depends on how the list was built: without [isQueue] every child after
    the first is handed the value the child before it returned as [last]
    (the first is handed [false]); with [isQueue] every child is handed the
    input of the list itself and no [last]. *)
Theorem list_threads_results (ts : list nat) (d : string) (ctl : Controller)
        (q : bool) (inp : Value) (us : Units) (h : Heap)
        (cs : list (nat * Input * Outcome Value)) (final : Value) (hf : Heap) :
  ts <> [] ->
  threaded (list_input q inp (fst (initial_state inp h)) ctl) us ts
           (VBool false) (snd (initial_state inp h)) = Some (cs, final, hf) ->
  exists n,
    let '(p, us', h') := run_list n inp (new_list ts d ctl q) us h in
    let st := fst (initial_state inp h) in
    pc p = pc_settled (Return final)
    /\ calls p = cs /\ h' = hf
    /\ (fun e => fst (fst e)) <$> calls p = ts
    /\ (forall e, calls p !! 0%nat = Some e ->
        snd (fst e) = if q then in_raw inp else in_ctx st (VBool false) ctl)
    /\ (forall k e e', calls p !! k = Some e -> calls p !! S k = Some e' ->
        exists v, call_result (snd e) = Some v
                  /\ snd (fst e') = if q then in_raw inp else in_ctx st v ctl)
    /\ (exists e, last (calls p) = Some e /\ call_result (snd e) = Some final)
    /\ (forall c, last ts = Some c ->
        exists t', us' !! c = Some t' /\ result (fields t') = final)
    /\ status (lfields (lane p)) = S_done
    /\ result (lfields (lane p)) = final.
Proof.
  intros Hne Hthr. unfold run_list. rewrite list_execute_spec.
  destruct (threaded_loop ts ctl q inp (fst (initial_state inp h)) ts 0
              (mkProc (set_lfields (execute_begin (lfields (new_list ts d ctl q)))
                                   (new_list ts d ctl q))
                      (pc_loop (fst (initial_state inp h)) (VBool false)) inp [])
              us (snd (initial_state inp h)) (VBool false) cs final hf)
    as (n & p' & us' & Hrun & Hpc & Hcalls & Hlast & _ & Hsd & Hrf);
    try done.
  exists n. rewrite Hrun. cbn in Hcalls. subst cs.
  pose proof (threaded_chained _ _ _ _ _ _ _ _ Hthr) as Hch.
  cbv zeta. split_and!; try done.
  - by eapply chained_refs.
  - intros e He. by rewrite (chained_first _ _ _ _ _ _ Hch He).
  - intros k e e' He He'.
    destruct (chained_next _ _ _ _ _ _ _ _ Hch He He') as (v & ? & ?). by exists v.
  - by eapply chained_last.
Qed.

(** A task list built with [isQueue] (as every list of a bucket's pool is)
    and run on [7]: the second child is handed [7], not the [1] the first
    child returned, and sees no [last]. *)
Lemma queue_list_hides_previous_result :
  let '(p, _, _) := run_list 4 (VNum 7) queue_steps one_then_echo ∅ in
  pc p = pc_settled (Return (VNum 7))
  /\ calls p = [(0%nat, in_raw (VNum 7), Return (VNum 1));
                (1%nat, in_raw (VNum 7), Return (VNum 7))]
  /\ (call_last ∘ snd ∘ fst <$> calls p !! 1%nat) <> Some (Some (VNum 1)).
Proof. by vm_compute. Qed.

(** C6 (as the code has it): a task list of [n] tasks that all return
    emits ['progress'] [n] times, with the tick values [0, 1, ..., n-1]: the
    cursor is passed before it is incremented. *)
Theorem list_progress_from_zero (ts : list nat) (d : string) (ctl : Controller)
        (q : bool) (inp : Value) (us : Units) (h : Heap) :
  all_return ts us ->
  exists n v,
    let '(p, _, _) := run_list n inp (new_list ts d ctl q) us h in
    pc p = pc_settled (Return v)
    /\ progress_ticks (emitted (lfields (lane p)))
       = map Z.of_nat (seq 0 (length ts)).
Proof.
  intros Hall.
  destruct (run_list_all_return ts d ctl q inp us h Hall)
    as (n & p & us' & h' & final & Hrun & Hpc & _ & Hticks & _).
  exists n, final. by rewrite Hrun.
Qed.

Lemma two_units_return : all_return [0%nat; 1%nat] two_units.
Proof.
  repeat constructor.
  - exists (new_task return_one). split; [done|]. intros inp h. by eexists _, _, _.
  - exists (new_task add_one). split; [done|]. intros inp h.
    destruct inp as [v|st [| | |n| | | |] ctl]; by eexists _, _, _.
Qed.

Lemma list_threads_results_witness :
  exists n,
    pc (fst (fst (run_list n VUndefined two_steps two_units ∅)))
    = pc_settled (Return (VNum 2)).
Proof.
  destruct (list_threads_results [0%nat; 1%nat] "steps" ctl_this false
              VUndefined two_units ∅
              [(0%nat, in_ctx (VRef 0) (VBool false) ctl_this, Return (VNum 1));
               (1%nat, in_ctx (VRef 0) (VNum 1) ctl_this, Return (VNum 2))]
              (VNum 2) (snd (initial_state VUndefined ∅))
              ltac:(discriminate) eq_refl)
    as (n & H).
  exists n. fold two_steps in H.
  destruct (run_list n VUndefined two_steps two_units ∅) as [[p us'] h'].
  exact (proj1 H).
Defined.

Lemma list_progress_from_zero_witness :
  exists n,
    progress_ticks
      (emitted (lfields (lane (fst (fst (run_list n VUndefined two_steps two_units ∅))))))
    = [0; 1].
Proof.
  destruct (list_progress_from_zero [0%nat; 1%nat] "steps" ctl_this false
              VUndefined two_units ∅ two_units_return)
    as (n & v & H).
  exists n. fold two_steps in H.
  destruct (run_list n VUndefined two_steps two_units ∅) as [[p us'] h'].
  exact (proj2 H).
Defined.

(** The task list of the test resolves with [2]; its two ['progress']
    signals carry [0] and [1], and [ticks] ends at [1] of [totalTicks = 2]. *)
Example two_steps_run :
  let '(p, us', _) := run_list 4 VUndefined two_steps two_units ∅ in
  pc p = pc_settled (Return (VNum 2))
  /\ calls p = [(0%nat, in_ctx (VRef 0) (VBool false) ctl_this, Return (VNum 1));
                 (1%nat, in_ctx (VRef 0) (VNum 1) ctl_this, Return (VNum 2))]
  /\ emitted (lfields (lane p))
     = [sig_status S_execute; child_execute 0; child_done 0; sig_progress 0;
        child_execute 1; child_done 1; sig_progress 1; sig_empty;
        sig_status S_done]
  /\ ticks (lfields (lane p)) = 1 /\ totalTicks (lfields (lane p)) = 2.
Proof. by vm_compute. Qed.

(** One task: the only ['progress'] signal carries [0], not [1]. *)
Example one_step_progress :
  let '(p, _, _) :=
    run_list 3 VUndefined (new_list [0%nat] "steps" ctl_this false) two_units ∅ in
  pc p = pc_settled (Return (VNum 1))
  /\ progress_ticks (emitted (lfields (lane p))) = [0].
Proof. by vm_compute. Qed.

(** * Further properties *)

(** ** TaskWithQueue: what a successful [addTask] or [prependTask] does *)

(** The constructor makes [totalTicks] the length of the queue, and a call
    of [addTask] or [prependTask] that does not throw keeps it so: the queue
    grows by one task, [totalTicks] by one, and the cursor stays. *)
Theorem queue_ticks_invariant (allow : bool) (u : nat) (q q' : TaskWithQueue) :
  ticks_match q ->
  addTask allow u q = Return q' \/ prependTask allow u q = Return q' ->
  ticks_match q'
  /\ length (tasks q') = S (length (tasks q))
  /\ taskIndex q' = taskIndex q
  /\ forall ts d, ticks_match (new_queue ts d).
Proof.
  unfold ticks_match, addTask, prependTask, splice_in.
  intros Hq [H|H]; destruct allow; try discriminate; injection H as <-; cbn.
  - rewrite Hq, length_app. cbn. split_and!; try done; lia.
  - rewrite Hq, length_app. cbn. rewrite length_take, length_drop.
    split_and!; try done; lia.
Qed.

Lemma queue_ticks_invariant_witness :
  match addTask (allowTaskAddition done_queue) 7 done_queue with
  | Return q' => ticks_match q' /\ length (tasks q') = 3%nat
  | Throw _ => False
  end.
Proof.
  destruct (addTask (allowTaskAddition done_queue) 7 done_queue) as [q'|e] eqn:H;
    [|discriminate H].
  destruct (queue_ticks_invariant (allowTaskAddition done_queue) 7 done_queue q'
              eq_refl (or_introl H)) as (H1 & H2 & _).
  split; [exact H1 | exact H2].
Defined.

(** Where the new task lands.  After [prependTask] the cursor points at the
    new task, so it is the next to run; the tasks before the cursor are
    untouched and those from the cursor on follow in their old order.
    After [addTask] every old position holds what it held and the new task
    is the last. *)
Theorem added_task_position (allow : bool) (u : nat) (q q' : TaskWithQueue) :
  (taskIndex q <= length (tasks q))%nat ->
  (prependTask allow u q = Return q' ->
   tasks q' !! taskIndex q' = Some u
   /\ take (taskIndex q) (tasks q') = take (taskIndex q) (tasks q)
   /\ drop (S (taskIndex q)) (tasks q') = drop (taskIndex q) (tasks q))
  /\ (addTask allow u q = Return q' ->
      (forall i, (i < length (tasks q))%nat -> tasks q' !! i = tasks q !! i)
      /\ last (tasks q') = Some u).
Proof.
  intros Hle. unfold addTask, prependTask, splice_in.
  split; intros H; destruct allow; try discriminate; injection H as <-; cbn.
  - split_and!.
    + rewrite lookup_app_r by (rewrite length_take; lia).
      rewrite length_take. by replace (_ - _)%nat with 0%nat by lia.
    + rewrite take_app_le by (rewrite length_take; lia).
      rewrite take_take. f_equal. lia.
    + rewrite drop_app_ge by (rewrite length_take; lia).
      rewrite length_take.
      by replace (S (taskIndex q) - _)%nat with 1%nat by lia.
  - split.
    + intros i Hi. by rewrite lookup_app_l.
    + by rewrite last_snoc.
Qed.

Lemma added_task_position_witness :
  match prependTask (allowTaskAddition done_queue) 7 done_queue with
  | Return q' => tasks q' !! taskIndex q' = Some 7%nat
  | Throw _ => False
  end.
Proof.
  destruct (prependTask (allowTaskAddition done_queue) 7 done_queue) as [q'|e] eqn:H;
    [|discriminate H].
  exact (proj1 (proj1 (added_task_position (allowTaskAddition done_queue) 7
                         done_queue q' ltac:(cbn; lia)) H)).
Defined.

(** ** TaskList: what a run leaves alone *)

Lemma execute_settle_keeps (out : Outcome Value) (f : Fields) :
  totalTicks (fst (execute_settle out f)) = totalTicks f
  /\ ticks (fst (execute_settle out f)) = ticks f
  /\ isTicking (fst (execute_settle out f)) = isTicking f
  /\ description (fst (execute_settle out f)) = description f.
Proof.
  destruct out as [v|e]; unfold execute_settle, state, execute_catch, emit; cbn;
    [done|]. by destruct (Nat.eqb _ _).
Qed.

Lemma finish_keeps (o : Outcome Value) (l : TaskList) (p : Proc) :
  let p' := finish o l p in
  tasks (l_queue (lane p')) = tasks (l_queue l)
  /\ taskIndex (l_queue (lane p')) = taskIndex (l_queue l)
  /\ totalTicks (lfields (lane p')) = totalTicks (lfields l)
  /\ wait (lane p') = wait l /\ isQueue (lane p') = isQueue l
  /\ controller (lane p') = controller l /\ empty (lane p') = empty l
  /\ calls p' = calls p /\ input p' = input p
  /\ is_settled (pc p') = true.
Proof.
  unfold finish. pose proof (execute_settle_keeps o (lfields l)) as (Ht & _).
  destruct (execute_settle o (lfields l)) as [f o']. cbn in *. by rewrite Ht.
Qed.

(** A task list that nobody listens to keeps its queue through a turn: the
    same tasks in the same order, the same [totalTicks], [wait], [isQueue]
    and [controller]; the cursor does not go back and stays within the
    queue. *)
Lemma alone_step_keeps_queue (p : Proc) (us : Units) (h : Heap) :
  let p' := fst (fst (fst (list_step alone_onChild alone_onEmpty p us h tt))) in
  tasks (l_queue (lane p')) = tasks (l_queue (lane p))
  /\ totalTicks (lfields (lane p')) = totalTicks (lfields (lane p))
  /\ wait (lane p') = wait (lane p) /\ isQueue (lane p') = isQueue (lane p)
  /\ controller (lane p') = controller (lane p)
  /\ (taskIndex (l_queue (lane p)) <= taskIndex (l_queue (lane p')))%nat
  /\ ((taskIndex (l_queue (lane p)) <= length (tasks (l_queue (lane p))))%nat ->
      (taskIndex (l_queue (lane p')) <= length (tasks (l_queue (lane p))))%nat).
Proof.
  unfold list_step. destruct (pc p) as [st prev|st prev|o] eqn:Hpc.
  - destruct (_ <? _)%nat eqn:Hlt.
    2:{ cbn [fst]. destruct (finish_keeps (Return prev) (lane p) p)
          as (-> & -> & -> & -> & -> & -> & _). split_and!; done. }
    apply Nat.ltb_lt in Hlt.
    destruct (tasks (l_queue (lane p)) !! taskIndex (l_queue (lane p))) as [c|].
    2:{ cbn [fst]. destruct (finish_keeps (Throw not_a_task) (lane p) p)
          as (-> & -> & -> & -> & -> & -> & _). split_and!; done. }
    unfold run_child. destruct (us !! c) as [t|].
    2:{ cbn [fst]. destruct (finish_keeps (Throw not_a_task) (set_empty false (lane p)) p)
          as (-> & -> & -> & -> & -> & -> & _). split_and!; done. }
    cbv zeta. destruct (execute _ _ h) as [[t2 h'] [v|e]].
    + rewrite list_emit_all by apply relayed_not_error.
      destruct (stepped_list_fields (lane p) c
                  (relayed (listeners_on c (listen c (set_empty false (lane p))))
                     (omap (relabel c)
                        (drop (length (emitted (fields t))) (emitted (fields t2))))))
        as [(H3t & H3i & H3w & H3q & H3c & _) (H4t & H4i & H4w & H4q & H4c & _)].
      rewrite H3t, H3i. unfold alone_onEmpty.
      destruct (_ <=? _)%nat; cbn [fst lane].
      * rewrite H4t, H4i, H4w, H4q, H4c.
        destruct (lane p) as [[f ts idx] w e q ctl ls]. cbn in *.
        split_and!; try done; try lia.
      * rewrite H3t, H3i, H3w, H3q, H3c.
        destruct (lane p) as [[f ts idx] w e q ctl ls]. cbn in *.
        split_and!; try done; try lia.
    + rewrite list_emit_all by apply relayed_not_error. cbn [fst].
      match goal with |- context [finish (Throw e) ?l ?q] =>
        destruct (finish_keeps (Throw e) l q) as (-> & -> & -> & -> & -> & -> & _) end.
      destruct (lane p) as [[f ts idx] w e0 q ctl ls]. cbn. split_and!; try done; lia.
  - destruct (wait (lane p)) eqn:Hw; cbn; split_and!; try done; lia.
  - cbn. split_and!; try done; lia.
Qed.

(** However many turns a task list takes while nobody listens to it, its
    queue is the one it started with (same tasks, same order), [totalTicks],
    [wait], [isQueue] and [controller] are unchanged, and the cursor only
    moves forward and never past the end of the queue. *)
Theorem list_run_keeps_queue (n : nat) (p : Proc) (us : Units) (h : Heap) :
  let p' := fst (fst (fst (list_steps alone_onChild alone_onEmpty n p us h tt))) in
  tasks (l_queue (lane p')) = tasks (l_queue (lane p))
  /\ totalTicks (lfields (lane p')) = totalTicks (lfields (lane p))
  /\ wait (lane p') = wait (lane p) /\ isQueue (lane p') = isQueue (lane p)
  /\ controller (lane p') = controller (lane p)
  /\ (taskIndex (l_queue (lane p)) <= taskIndex (l_queue (lane p')))%nat
  /\ ((taskIndex (l_queue (lane p)) <= length (tasks (l_queue (lane p))))%nat ->
      (taskIndex (l_queue (lane p')) <= length (tasks (l_queue (lane p))))%nat).
Proof.
  revert p us h. induction n as [|n IH]; intros p us h;
    [cbn; split_and!; try done; lia|].
  cbn [list_steps].
  pose proof (alone_step_keeps_queue p us h) as Hs. cbv zeta in Hs.
  destruct (list_step alone_onChild alone_onEmpty p us h tt) as [[[p1 us1] h1] []].
  cbn [fst] in Hs. destruct Hs as (H1 & H2 & H3 & H4 & H5 & H6 & H7).
  specialize (IH p1 us1 h1). cbv zeta in IH.
  destruct IH as (I1 & I2 & I3 & I4 & I5 & I6 & I7).
  rewrite H1 in I1, I7. split_and!; try congruence; lia.
Qed.

(** ** TaskList: a child that throws *)

Section FailingChild.
Context {B : Type} (onChild : Signal -> B -> B)
        (onEmpty : TaskList -> B -> TaskList * B * option Value).

Lemma run_child_throws (p : Proc) (us : Units) (h h' : Heap) (b : B)
      (st prev : Value) (c : nat) (t : Task) (rs : list Z) (e : Value) :
  pc p = pc_loop st prev ->
  tasks (l_queue (lane p)) !! taskIndex (l_queue (lane p)) = Some c ->
  us !! c = Some t ->
  action t (child_input st prev p) h = (h', rs, Throw e) ->
  exists f' sigs,
    let l2 := emitted_more sigs (listen c (set_empty false (lane p))) in
    list_step onChild onEmpty p us h b
    = (finish (Throw e) l2
              (mkProc l2 (pc p) (input p)
                      (calls p ++ [(c, child_input st prev p, Throw e)])),
       <[c := mkTask f' (action t)]> us, h',
       fold_left (fun b s => onChild s b) sigs b)
    /\ status f' = S_error /\ error f' = e
    /\ Forall (fun s => s <> sig_empty) sigs.
Proof.
  intros Hpc Hc Hus Ha.
  rewrite (list_step_child _ _ _ _ _ _ _ _ _ Hpc Hc).
  unfold run_child. rewrite Hus. cbv zeta.
  destruct (execute_throws (child_input st prev p)
              (mkTask (on_error (fields t)) (action t)) h h' rs e Ha)
    as (f' & Hex & Hst & Her & _).
  rewrite Hex. cbn in Hst. cbn -[finish child_input].
  rewrite list_emit_all by apply relayed_not_error.
  eexists f', _. cbv zeta. split; [reflexivity|]. split_and!; try done.
  apply relayed_Forall.
  generalize (drop (length (emitted (fields t))) (emitted f')).
  intros l. induction l as [|s l IH]; [constructor|].
  cbn. destruct s as [[]| | | | | | |]; cbn; try done; by constructor.
Qed.

(** When the child under the cursor throws, the task list is finished for
    good: however many turns follow, the cursor stays on that child, no
    further child is called, no ['empty'] is emitted, and no task of the
    store other than that child is touched. *)
Theorem failed_child_stops_list (n : nat) (p : Proc) (us : Units) (h h' : Heap)
        (b : B) (st prev : Value) (c : nat) (t : Task) (rs : list Z) (e : Value) :
  pc p = pc_loop st prev ->
  tasks (l_queue (lane p)) !! taskIndex (l_queue (lane p)) = Some c ->
  us !! c = Some t ->
  action t (child_input st prev p) h = (h', rs, Throw e) ->
  let '(p', us', h'', _) := list_steps onChild onEmpty (S n) p us h b in
  is_settled (pc p') = true
  /\ taskIndex (l_queue (lane p')) = taskIndex (l_queue (lane p))
  /\ tasks (l_queue (lane p')) = tasks (l_queue (lane p))
  /\ calls p' = calls p ++ [(c, child_input st prev p, Throw e)]
  /\ (forall s, s ∈ drop (length (emitted (lfields (lane p))))
                        (emitted (lfields (lane p'))) -> s <> sig_empty)
  /\ (forall c', c' <> c -> us' !! c' = us !! c')
  /\ h'' = h'.
Proof.
  intros Hpc Hc Hus Ha.
  destruct (run_child_throws p us h h' b st prev c t rs e Hpc Hc Hus Ha)
    as (f' & sigs & Hstep & _ & _ & Hsigs).
  cbv zeta in Hstep. rewrite (list_steps_S _ _ _ _ _ _ _ _ _ _ _ Hstep).
  match goal with |- context [finish (Throw e) ?l ?q] =>
    pose proof (finish_keeps (Throw e) l q) as Hk;
    pose proof (finish_throw e l q) as Hf;
    destruct (finish (Throw e) l q) as [lf pcf inf cf] eqn:Hfin end.
  cbv zeta in Hk, Hf. cbn [lane pc calls input] in Hk, Hf.
  destruct Hk as (Hk1 & Hk2 & _ & _ & _ & _ & _ & Hk8 & _ & Hk10).
  rewrite list_steps_settled by done. cbn [lane pc calls input].
  split_and!; try done.
  - unfold finish in Hfin. unfold execute_settle, execute_catch, emit in Hfin.
    cbn in Hfin. destruct (Nat.eqb _ _); injection Hfin as <- _ _ _; cbn;
      destruct (lane p) as [[f ts idx] w e0 q ctl ls]; cbn;
      rewrite <- app_assoc, drop_app_length; intros s Hs;
      apply elem_of_app in Hs as [Hs|Hs];
      try (by apply (proj1 (Forall_forall _ _) Hsigs));
      apply list_elem_of_singleton in Hs; by subst.
  - intros c' Hne. by rewrite lookup_insert_ne.
Qed.
End FailingChild.

Lemma failed_child_stops_list_witness :
  let '(p', us', _, _) :=
    list_steps alone_onChild alone_onEmpty 4 (fst failing_list) failing_units
               (snd failing_list) tt in
  is_settled (pc p') = true /\ taskIndex (l_queue (lane p')) = 0%nat.
Proof.
  pose proof (failed_child_stops_list alone_onChild alone_onEmpty 3
                (fst failing_list) failing_units (snd failing_list)
                (snd failing_list) tt (VRef 0) (VBool false) 0%nat
                (new_task boom) [] (VError "boom")
                eq_refl eq_refl eq_refl eq_refl) as H.
  destruct (list_steps alone_onChild alone_onEmpty 4 (fst failing_list)
              failing_units (snd failing_list) tt) as [[[p' us'] h'] b'].
  destruct H as (H1 & H2 & _). split; [exact H1 | exact H2].
Defined.

(** ** TaskList: waiting in [stayIdle] *)

Section Idle.
Context {B : Type} (onChild : Signal -> B -> B)
        (onEmpty : TaskList -> B -> TaskList * B * option Value).

(** A task list that waits in [stayIdle] with its queue used up: while it is
    paused, any number of turns leaves the list, the tasks, the heap and its
    listeners exactly as they are; once it is not paused, it returns within
    two turns with the value of its last child, is ['done'] with that value
    as [result], and has called no further child. *)
Theorem idle_list_waits_until_resumed (n : nat) (p : Proc) (us : Units)
        (h : Heap) (b : B) (st v : Value) :
  pc p = pc_idle st v ->
  (length (tasks (l_queue (lane p))) <= taskIndex (l_queue (lane p)))%nat ->
  if wait (lane p)
  then list_steps onChild onEmpty n p us h b = (p, us, h, b)
  else let '(p', us', h', b') := list_steps onChild onEmpty (S (S n)) p us h b in
       pc p' = pc_settled (Return v)
       /\ status (lfields (lane p')) = S_done
       /\ result (lfields (lane p')) = v
       /\ calls p' = calls p
       /\ us' = us /\ h' = h /\ b' = b.
Proof.
  intros Hpc Hend. destruct (wait (lane p)) eqn:Hw.
  - by apply (list_steps_paused _ _ _ _ _ _ _ st v).
  - rewrite (list_steps_S _ _ (S n) p
               (mkProc (lane p) (pc_loop st v) (input p) (calls p)) us us h h b b).
    2:{ by rewrite (list_step_idle _ _ _ _ _ _ st v Hpc), Hw. }
    rewrite (list_steps_S _ _ n _
               (finish (Return v) (lane p)
                       (mkProc (lane p) (pc_loop st v) (input p) (calls p)))
               us us h h b b).
    2:{ by rewrite (list_step_at_end _ _ _ _ _ _ st v). }
    rewrite list_steps_settled by done. done.
Qed.
End Idle.

Lemma idle_list_waits_until_resumed_witness :
  let p := fst (fst (run_list 2 VNull (pause (new_list [0%nat] "steps" ctl_this false))
                              two_units ∅)) in
  list_steps alone_onChild alone_onEmpty 7 p two_units ∅ tt = (p, two_units, ∅, tt).
Proof.
  exact (idle_list_waits_until_resumed alone_onChild alone_onEmpty 7
           (fst (fst (run_list 2 VNull
                               (pause (new_list [0%nat] "steps" ctl_this false))
                               two_units ∅)))
           two_units ∅ tt (VRef 0) (VNum 1) eq_refl ltac:(vm_compute; lia)).
Defined.

(** ** TaskBucket: [checkDone] *)

Lemma resumed_still_empty (ps : list Proc) :
  forallb (fun p => empty (lane p)) (map (fun p => set_lane (resume (lane p)) p) ps)
  = forallb (fun p => empty (lane p)) ps.
Proof. induction ps as [|p ps IH]; [done|]. cbn. by rewrite IH. Qed.

Lemma checkDone_keeps (b : TaskBucket) :
  b_queue (checkDone b) = b_queue b
  /\ length (taskLists (checkDone b)) = length (taskLists b)
  /\ parallel (checkDone b) = parallel b /\ collect (checkDone b) = collect b
  /\ clearing (checkDone b) = clearing b /\ rejected (checkDone b) = rejected b.
Proof.
  unfold checkDone. destruct (forallb _ _); cbn; rewrite ?length_map; done.
Qed.

(** [checkDone] is all or nothing and only ever resumes: it leaves the
    queue, the size of the pool and, for each task list, everything but
    [wait] as they are; a list is paused afterwards exactly when it was
    paused before and some list of the pool was not [empty]; and calling it
    again changes nothing more. *)
Theorem checkDone_only_resumes (b : TaskBucket) :
  b_queue (checkDone b) = b_queue b
  /\ length (taskLists (checkDone b)) = length (taskLists b)
  /\ (forall i p, taskLists b !! i = Some p ->
      exists p', taskLists (checkDone b) !! i = Some p'
        /\ pc p' = pc p /\ calls p' = calls p
        /\ l_queue (lane p') = l_queue (lane p)
        /\ empty (lane p') = empty (lane p)
        /\ wait (lane p')
           = (wait (lane p) && negb (forallb (fun p => empty (lane p)) (taskLists b))))
  /\ checkDone (checkDone b) = checkDone b.
Proof.
  unfold checkDone. destruct (forallb _ (taskLists b)) eqn:Hall.
  - cbn. rewrite length_map. split_and!; try done.
    + intros i p Hp. eexists. rewrite list_lookup_fmap, Hp. cbn.
      split; [done|]. by rewrite andb_false_r.
    + rewrite resumed_still_empty, Hall. unfold set_taskLists. cbn. f_equal.
      rewrite <- list_fmap_compose. apply list_fmap_ext.
      intros i [l ? ? ?] _. by destruct l.
  - rewrite Hall. split_and!; try done.
    intros i p Hp. exists p. split_and!; try done. by rewrite andb_true_r.
Qed.

(** ** TaskBucket: what a run leaves alone *)

Section Listeners.
Context {B : Type} (onChild : Signal -> B -> B)
        (onEmpty : TaskList -> B -> TaskList * B * option Value)
        (R : B -> B -> Prop).
Hypothesis R_refl : forall b, R b b.
Hypothesis R_trans : forall b1 b2 b3, R b1 b2 -> R b2 b3 -> R b1 b3.
Hypothesis R_child : forall s b, R b (onChild s b).
Hypothesis R_empty : forall l b, R b (snd (fst (onEmpty l b))).

Lemma fold_onChild_related (sigs : list Signal) (b : B) :
  R b (fold_left (fun b s => onChild s b) sigs b).
Proof.
  revert b. induction sigs as [|s sigs IH]; intros b; [apply R_refl|].
  cbn. eapply R_trans; [apply R_child|apply IH].
Qed.

(** Whatever a turn of a task list does to its listeners' state, the
    listeners did it. *)
Lemma list_step_related (p : Proc) (us : Units) (h : Heap) (b : B) :
  R b (snd (list_step onChild onEmpty p us h b)).
Proof.
  unfold list_step. destruct (pc p) as [st prev|st prev|o].
  - destruct (_ <? _)%nat; [|apply R_refl].
    destruct (_ !! _) as [c|]; [|apply R_refl].
    unfold run_child. destruct (us !! c) as [t|]; [|apply R_refl].
    cbv zeta. destruct (execute _ _ h) as [[t2 h'] [v|e]].
    + destruct (_ <=? _)%nat; [|apply fold_onChild_related].
      match goal with |- context [onEmpty ?l ?b1] =>
        pose proof (R_empty l b1) as He; destruct (onEmpty l b1) as [[l4 b2] [e|]] end;
        cbn in *; (eapply R_trans; [apply fold_onChild_related|exact He]).
    + apply fold_onChild_related.
  - destruct (wait (lane p)); apply R_refl.
  - apply R_refl.
Qed.
End Listeners.

Lemma bucket_kept_refl (b : TaskBucket) : bucket_kept b b.
Proof. unfold bucket_kept. split_and!; try done. Qed.

Lemma bucket_kept_trans (b1 b2 b3 : TaskBucket) :
  bucket_kept b1 b2 -> bucket_kept b2 b3 -> bucket_kept b1 b3.
Proof.
  unfold bucket_kept.
  intros (A1 & A2 & A3 & A4 & A5 & A6 & A7 & A8 & A9 & A10)
         (B1 & B2 & B3 & B4 & B5 & B6 & B7 & B8 & B9 & B10).
  rewrite A2 in B9. split_and!; try congruence; try lia.
  intros e He. apply B10. by apply A10.
Qed.

Lemma bucket_onChild_kept (s : Signal) (b : TaskBucket) :
  bucket_kept b (bucket_onChild s b).
Proof.
  unfold bucket_kept, bucket_onChild, emit.
  destruct s as [[]| | | | | | |]; cbn; try destruct (Nat.eqb _ _); cbn;
    split_and!; try done; lia.
Qed.

Lemma bucket_onEmpty_kept (i : nat) (l : TaskList) (b : TaskBucket) :
  bucket_kept b (snd (fst (bucket_onEmpty i l b))).
Proof.
  unfold bucket_onEmpty. destruct (_ <=? _)%nat eqn:Hle.
  - cbn. destruct (checkDone_keeps
                     (set_taskLists (alter (set_lane l) i (taskLists b)) b))
      as (Hq & Hlen & Hp & Hc & Hcl & Hr).
    unfold bucket_kept, bfields. rewrite Hq, Hlen, Hp, Hc, Hcl, Hr. cbn.
    rewrite length_alter. split_and!; try done; lia.
  - apply Nat.leb_gt in Hle.
    destruct (_ !! _) as [u|]; [|apply bucket_kept_refl].
    destruct (list_addTask u l); cbn; unfold bucket_kept; cbn;
      split_and!; try done; lia.
Qed.

Ltac kept_by_fields :=
  unfold bucket_kept; cbn; rewrite ?length_insert; split_and!;
  try done; try lia; try (intros; congruence).

Lemma bucket_step_kept (i : nat) (b : TaskBucket) (us : Units) (h : Heap) :
  bucket_kept b (fst (fst (bucket_step i b us h))).
Proof.
  unfold bucket_step. destruct (taskLists b !! i) as [p|] eqn:Hp;
    [|apply bucket_kept_refl].
  pose proof (list_step_related bucket_onChild (bucket_onEmpty i) bucket_kept
                bucket_kept_refl bucket_kept_trans bucket_onChild_kept
                (bucket_onEmpty_kept i) p us h b) as Hk.
  destruct (list_step bucket_onChild (bucket_onEmpty i) p us h b)
    as [[[p' us'] h'] b1].
  cbn in Hk. cbn [fst]. eapply bucket_kept_trans; [exact Hk|].
  destruct (pc p') as [| |[v|e]]; [kept_by_fields..|].
  cbn [set_taskLists rejected]. destruct (rejected b1) eqn:Hr; [kept_by_fields|].
  destruct (is_settled (pc p)); kept_by_fields.
Qed.

Lemma bucket_steps_kept (sched : list nat) (b : TaskBucket) (us : Units)
      (h : Heap) :
  bucket_kept b (fst (fst (bucket_steps sched b us h))).
Proof.
  revert b us h. induction sched as [|i sched IH]; intros b us h;
    [apply bucket_kept_refl|].
  cbn [bucket_steps]. pose proof (bucket_step_kept i b us h) as Hs.
  destruct (bucket_step i b us h) as [[b1 us1] h1]. cbn [fst] in Hs.
  eapply bucket_kept_trans; [exact Hs|apply IH].
Qed.

(** While the task lists of a bucket take their turns, in any order and
    for any number of turns, the bucket keeps the size of its pool, the
    tasks of its queue, its [parallel], [collect], status and [totalTicks];
    its cursor only moves forward and stays within the queue; and once one
    list has been rejected, that first rejection stays the one noted. *)
Theorem bucket_run_keeps (sched : list nat) (b : TaskBucket) (us : Units)
        (h : Heap) :
  let b' := fst (fst (bucket_steps sched b us h)) in
  length (taskLists b') = length (taskLists b)
  /\ tasks (b_queue b') = tasks (b_queue b)
  /\ parallel b' = parallel b /\ collect b' = collect b
  /\ clearing b' = clearing b
  /\ status (bfields b') = status (bfields b)
  /\ totalTicks (bfields b') = totalTicks (bfields b)
  /\ (taskIndex (b_queue b) <= taskIndex (b_queue b'))%nat
  /\ ((taskIndex (b_queue b) <= length (tasks (b_queue b)))%nat ->
      (taskIndex (b_queue b') <= length (tasks (b_queue b)))%nat)
  /\ (forall e, rejected b = Some e -> rejected b' = Some e).
Proof. exact (bucket_steps_kept sched b us h). Qed.

Lemma execute_all_length (inp : Value) (ls : list TaskList) (h : Heap) :
  length (fst (execute_all inp ls h)) = length ls.
Proof.
  revert h. induction ls as [|l ls IH]; intros h; [done|].
  cbn [execute_all]. rewrite list_execute_spec.
  specialize (IH (snd (initial_state inp h))).
  destruct (execute_all inp ls _) as [ps h2]. cbn in *. by rewrite IH.
Qed.

(** [runTasks] of a bucket fills the pool up to [parallel] task lists and
    never beyond: after a run the pool has as many lists as before or
    [parallel], whichever is more, so a further run creates none; the queue
    of the bucket is the one it had. *)
Theorem pool_is_filled_once (sched : list nat) (inp : Value) (b : TaskBucket)
        (us : Units) (h : Heap) :
  let b' := fst (fst (fst (bucket_execute sched inp b us h))) in
  length (taskLists b')
  = Nat.max (length (taskLists b)) (Z.to_nat (parallel b))
  /\ tasks (b_queue b') = tasks (b_queue b)
  /\ parallel b' = parallel b.
Proof.
  unfold bucket_execute.
  set (b1 := set_bfields (execute_begin (bfields b)) b).
  pose proof (execute_all_length inp (spawn b1) h) as Hl.
  destruct (execute_all inp (spawn b1) h) as [ps h1]. cbn [fst] in Hl.
  pose proof (bucket_steps_kept sched (set_rejected None (set_taskLists ps b1)) us h1)
    as (K1 & K2 & K3 & _).
  destruct (bucket_steps sched _ us h1) as [[b3 us'] h2]. cbn [fst] in K1, K2, K3.
  assert (Hsp : length (spawn b1)
                = Nat.max (length (taskLists b)) (Z.to_nat (parallel b))).
  { unfold spawn. rewrite length_app, length_map, length_replicate. cbn. lia. }
  assert (Hfin : length (taskLists b3)
                 = Nat.max (length (taskLists b)) (Z.to_nat (parallel b))
                 /\ tasks (b_queue b3) = tasks (b_queue b)
                 /\ parallel b3 = parallel b).
  { cbn in K1, K2, K3. split_and!; congruence. }
  destruct (bucket_collect inp b3 us' h2) as [h3 [|o]]; [done|].
  destruct (execute_settle o (bfields b3)) as [f o']. by destruct b3, b_queue0.
Qed.

(** ** TaskList: what its listeners hear *)

Lemma relabel_progress (c : nat) (rs : list Z) :
  omap (relabel c) (List.map sig_progress rs) = List.map (child_progress c) rs.
Proof. induction rs as [|r rs IH]; [done|]. cbn. by rewrite IH. Qed.

(** The signals of one call of a child, as the list re-emits them. *)
Lemma execute_child_signals (c : nat) (inp : Input) (t : Task) (h h' : Heap)
      (rs : list Z) (out : Outcome Value) :
  action t inp h = (h', rs, out) ->
  exists f', execute inp (mkTask (on_error (fields t)) (action t)) h
             = (mkTask f' (action t), h', out)
    /\ omap (relabel c) (drop (length (emitted (fields t))) (emitted f'))
       = child_signals c rs out
    /\ settled_as out f'.
Proof.
  intros Ha. destruct out as [v|e].
  - destruct (execute_returns inp (mkTask (on_error (fields t)) (action t))
                h h' rs v Ha) as (f' & Hex & Hs & Hr & _ & _ & _ & Hem).
    exists f'. split; [done|]. split; [|done].
    cbn in Hem. rewrite Hem, drop_app_length.
    unfold child_signals. cbn. rewrite omap_app, relabel_progress. done.
  - destruct (execute_throws inp (mkTask (on_error (fields t)) (action t))
                h h' rs e Ha) as (f' & Hex & Hs & Hr & _ & _ & _ & Hem).
    exists f'. split; [done|]. split; [|done].
    cbn in Hem. rewrite Hem, drop_app_length.
    unfold child_signals. cbn. rewrite omap_app, relabel_progress. done.
Qed.

Lemma listeners_on_listen (c : nat) (l : TaskList) :
  listeners_on c (listen c l) = S (listeners_on c l).
Proof.
  unfold listeners_on, listen. cbn. rewrite count_occ_app. cbn.
  destruct (Nat.eq_dec c c); [lia|done].
Qed.

Lemma listeners_on_listen_ne (c c' : nat) (l : TaskList) :
  c' <> c -> listeners_on c' (listen c l) = listeners_on c' l.
Proof.
  intros Hne. unfold listeners_on, listen. cbn. rewrite count_occ_app. cbn.
  destruct (Nat.eq_dec c c'); [by subst|lia].
Qed.

Lemma execute_errorListeners (inp : Input) (t : Task) (h : Heap) :
  errorListeners (fields (fst (fst (execute inp t h)))) = errorListeners (fields t).
Proof.
  destruct (action t inp h) as [[h' rs] [v|e]] eqn:Ha.
  - by destruct (execute_returns inp t h h' rs v Ha) as (f' & -> & _ & _ & _ & _ & Hl & _).
  - by destruct (execute_throws inp t h h' rs e Ha) as (f' & -> & _ & _ & _ & _ & Hl & _).
Qed.

Section ListenerState.
Context {B : Type} (onChild : Signal -> B -> B)
        (onEmpty : TaskList -> B -> TaskList * B * option Value).

(** On the turn in which a task list runs the child under its cursor it
    registers one more set of listeners on that child and none is ever
    removed: with [k] sets on the child, the one just added included, each
    of [child/execute], the [child/progress] reports and [child/done] or
    [child/error] is emitted [k] times in a row on the list, and heard [k]
    times by whoever listens to the list, followed at most by one
    ['empty'].  A child the list runs for the first time is heard once, one
    it runs for the second time twice.  The child is one that carries no
    listener for ['error'] but those of this list, and that stays so. *)
Theorem child_signals_once_per_listener_set (p : Proc) (us : Units)
        (h h' : Heap) (b : B) (st prev : Value) (c : nat) (t : Task)
        (rs : list Z) (out : Outcome Value) :
  pc p = pc_loop st prev ->
  tasks (l_queue (lane p)) !! taskIndex (l_queue (lane p)) = Some c ->
  us !! c = Some t ->
  errorListeners (fields t) = listeners_on c (lane p) ->
  action t (child_input st prev p) h = (h', rs, out) ->
  let heard := relayed (S (listeners_on c (lane p))) (child_signals c rs out) in
  let b1 := fold_left (fun b s => onChild s b) heard b in
  let '(p', us', _, b') := list_step onChild onEmpty p us h b in
  (b' = b1 \/ exists l, b' = snd (fst (onEmpty l b1)))
  /\ (exists t', us' !! c = Some t'
        /\ errorListeners (fields t') = S (listeners_on c (lane p)))
  /\ ((exists e, out = Throw e)
      \/ (S (taskIndex (l_queue (lane p))) < length (tasks (l_queue (lane p))))%nat ->
      listeners_on c (lane p') = S (listeners_on c (lane p))
      /\ (forall c', c' <> c -> listeners_on c' (lane p') = listeners_on c' (lane p))
      /\ exists own, emitted (lfields (lane p'))
                     = emitted (lfields (lane p)) ++ heard ++ [own]).
Proof.
  intros Hpc Hc Hus Hown Ha heard b1.
  rewrite (list_step_child _ _ _ _ _ _ _ _ _ Hpc Hc).
  unfold run_child. rewrite Hus. cbv zeta.
  destruct (execute_child_signals c (child_input st prev p) t h h' rs out Ha)
    as (f' & Hex & Hsigs & _).
  pose proof (execute_errorListeners (child_input st prev p)
                (mkTask (on_error (fields t)) (action t)) h) as Hel.
  rewrite Hex in Hel. cbn in Hel. rewrite Hown in Hel.
  rewrite Hex. cbn [fields emitted].
  rewrite list_emit_all by apply relayed_not_error.
  rewrite Hsigs, listeners_on_listen.
  change (listeners_on c (set_empty false (lane p))) with (listeners_on c (lane p)).
  fold heard. fold b1.
  assert (Hchild : exists t', <[c := mkTask f' (action t)]> us !! c = Some t'
                     /\ errorListeners (fields t') = S (listeners_on c (lane p))).
  { eexists. rewrite lookup_insert_eq. split; [reflexivity|exact Hel]. }
  destruct out as [v|e].
  - destruct (stepped_list_fields (lane p) c heard)
      as [(H3t & H3i & _ & _ & _ & H3e) _].
    rewrite H3t, H3i.
    destruct (_ <=? _)%nat eqn:Hend.
    + apply Nat.leb_le in Hend.
      match goal with |- context [onEmpty ?l b1] =>
        destruct (onEmpty l b1) as [[l4 b2] [e|]] eqn:He end.
      * split; [right; eexists; by rewrite He|]. split; [done|].
        intros [[e' [=]]|Hlt]. lia.
      * split; [right; eexists; by rewrite He|]. split; [done|].
        intros [[e' [=]]|Hlt]. lia.
    + split; [by left|]. split; [done|]. intros _. cbn [lane].
      split_and!.
      * destruct (lane p) as [[f ts idx] w e q ctl ls]. cbn.
        apply (listeners_on_listen c (mkList (mkQueue f ts idx) w e q ctl ls)).
      * intros c' Hne. destruct (lane p) as [[f ts idx] w e q ctl ls]. cbn.
        by apply (listeners_on_listen_ne c c' (mkList (mkQueue f ts idx) w e q ctl ls)).
      * eexists. exact H3e.
  - split; [by left|]. split; [done|]. intros _.
    unfold finish, execute_settle, execute_catch, emit.
    destruct (lane p) as [[f ts idx] w e0 q ctl ls]. cbn.
    destruct (Nat.eqb _ _); cbn; (split_and!;
      [apply (listeners_on_listen c (mkList (mkQueue f ts idx) w e0 q ctl ls))
      |intros c' Hne;
       by apply (listeners_on_listen_ne c c' (mkList (mkQueue f ts idx) w e0 q ctl ls))
      |exists (sig_error e); by rewrite <- app_assoc]).
Qed.
End ListenerState.

Lemma child_signals_once_per_listener_set_witness :
  let '(p, us, h, b) := twice_started in
  snd (list_step log_onChild log_onEmpty p us h b)
  = [child_execute 0; child_done 0;
     child_execute 0; child_execute 0; child_done 0; child_done 0].
Proof.
  pose proof (child_signals_once_per_listener_set log_onChild log_onEmpty
                (fst (fst (fst twice_started))) (snd (fst (fst twice_started)))
                (snd (fst twice_started)) (snd (fst twice_started))
                (snd twice_started) (VRef 0) (VBool false) 0%nat
                (mkTask (fields (fst (fst (execute (in_ctx (VRef 0) (VBool false) ctl_this)
                                                   (mkTask (on_error (fields (new_task echo))) echo)
                                                   ∅))))
                        echo)
                [] (Return (VBool false))
                eq_refl eq_refl eq_refl eq_refl eq_refl) as H.
  cbv zeta in H.
  change twice_started
    with (fst (fst (fst twice_started)), snd (fst (fst twice_started)),
          snd (fst twice_started), snd twice_started).
  cbv iota beta.
  destruct (list_step log_onChild log_onEmpty (fst (fst (fst twice_started)))
              (snd (fst (fst twice_started))) (snd (fst twice_started))
              (snd twice_started)) as [[[p' us'] h'] b'].
  destruct H as ([Hb|[l Hb]] & _); cbn [snd]; rewrite Hb; reflexivity.
Defined.

(** A bucket whose task list runs the same task twice counts one tick for
    the first run and two for the second: the second run is heard through
    two sets of listeners. *)
Example second_run_counts_twice :
  let '(b1, us1, h1) := bucket_step 0 twice_bucket echo_units ∅ in
  let '(b2, _, _) := bucket_step 0 b1 us1 h1 in
  ticks (bfields b1) = 1 /\ ticks (bfields b2) = 3
  /\ emitted (bfields b2)
     = [child_execute 0; child_done 0; sig_progress 1;
        child_execute 0; child_execute 0;
        child_done 0; sig_progress 2; child_done 0; sig_progress 3].
Proof. by vm_compute. Qed.

(** A task list that runs the same task twice emits the signals of the
    second run twice. *)
Example second_run_is_heard_twice :
  let '(p, us, h, _) := twice_started in
  let '(p', _, _, _) := list_step log_onChild log_onEmpty p us h [] in
  emitted (lfields (lane p'))
  = [sig_status S_execute;
     child_execute 0; child_done 0; sig_progress 0;
     child_execute 0; child_execute 0; child_done 0; child_done 0;
     sig_progress 1; sig_empty].
Proof. by vm_compute. Qed.

(** ** TaskBucket: rejections *)

(** The listeners of a bucket never touch the state of its
    [Promise.all]. *)
Lemma bucket_listeners_keep_rejected (i : nat) (p : Proc) (us : Units)
      (h : Heap) (b : TaskBucket) :
  rejected (snd (list_step bucket_onChild (bucket_onEmpty i) p us h b))
  = rejected b.
Proof.
  apply (list_step_related bucket_onChild (bucket_onEmpty i)
           (fun b b' => rejected b' = rejected b)).
  - done.
  - intros b1 b2 b3 H1 H2. congruence.
  - intros s b0. unfold bucket_onChild, emit.
    destruct s as [[]| | | | | | |]; cbn; try destruct (Nat.eqb _ _); done.
  - intros l b0. unfold bucket_onEmpty. destruct (_ <=? _)%nat.
    + cbn. by destruct (checkDone_keeps
                          (set_taskLists (alter (set_lane l) i (taskLists b0)) b0))
        as (_ & _ & _ & _ & _ & ->).
    + destruct (_ !! _) as [u|]; [|done]. by destruct (list_addTask u l).
Qed.

(** When the [execute] of a task list of the pool ends by throwing [e] on
    its turn and no list was rejected before, the [Promise.all] of the
    bucket is rejected with [e]: it stays so whatever the lists do on the
    turns that follow, [runTasks] throws [e] whether or not the other lists
    have finished, the collector is not called and the heap is left as it
    is. *)
Theorem first_rejection_wins (i : nat) (sched : list nat) (inp e : Value)
        (b : TaskBucket) (us : Units) (h : Heap) (p : Proc) :
  taskLists b !! i = Some p ->
  rejected b = None ->
  is_settled (pc p) = false ->
  pc (fst (fst (fst (list_step bucket_onChild (bucket_onEmpty i) p us h b))))
  = pc_settled (Throw e) ->
  let '(b', us', h') := bucket_steps (i :: sched) b us h in
  rejected b' = Some e
  /\ bucket_collect inp b' us' h' = (h', Settled (Throw e)).
Proof.
  intros Hp Hnone Hrun Hthrow. cbn [bucket_steps].
  assert (Hnoted : rejected (fst (fst (bucket_step i b us h))) = Some e).
  { unfold bucket_step. rewrite Hp.
    pose proof (bucket_listeners_keep_rejected i p us h b) as Hr.
    destruct (list_step bucket_onChild (bucket_onEmpty i) p us h b)
      as [[[p' us'] h'] b1].
    cbn [fst snd] in *. rewrite Hthrow. cbn [set_taskLists rejected].
    by rewrite Hr, Hnone, Hrun. }
  destruct (bucket_step i b us h) as [[b1 us1] h1]. cbn [fst] in Hnoted.
  pose proof (bucket_steps_kept sched b1 us1 h1) as Hk.
  destruct (bucket_steps sched b1 us1 h1) as [[b' us'] h']. cbn [fst] in Hk.
  destruct Hk as (_ & _ & _ & _ & _ & _ & _ & _ & _ & Hrej).
  specialize (Hrej e Hnoted). split; [done|].
  unfold bucket_collect. by rewrite Hrej.
Qed.

Lemma first_rejection_wins_witness :
  let '(b', us', h') :=
    bucket_steps [0%nat; 0%nat; 0%nat] feeding_bucket echo_units (snd queue_list) in
  bucket_collect VNull b' us' h' = (h', Settled (Throw cant_add)).
Proof.
  pose proof (first_rejection_wins 0 [0%nat; 0%nat] VNull cant_add feeding_bucket
                echo_units (snd queue_list) (fst queue_list)
                eq_refl eq_refl eq_refl eq_refl) as H.
  destruct (bucket_steps [0%nat; 0%nat; 0%nat] feeding_bucket echo_units
              (snd queue_list)) as [[b' us'] h'].
  exact (proj2 H).
Defined.

(** ** BuildUtil *)

Lemma one_spec (d : BuildTaskDefinition) (us : Units) :
  match d with
  | built t => BuildUtil.one d us = (t, us)
  | plain desc a tk =>
      exists r, BuildUtil.one d us = (r, <[r := task_of desc a tk]> us)
                /\ us !! r = None
  end.
Proof.
  destruct d as [t|desc a tk]; [done|].
  eexists. split; [reflexivity|]. apply not_elem_of_dom, is_fresh.
Qed.

Lemma many_grows (ds : list BuildTaskDefinition) (us : Units) :
  us ⊆ snd (BuildUtil.many ds us)
  /\ length (fst (BuildUtil.many ds us)) = length ds.
Proof.
  revert us. induction ds as [|d ds IH]; intros us; [done|].
  cbn [BuildUtil.many]. pose proof (one_spec d us) as H1.
  destruct d as [t|desc a tk].
  - rewrite H1. destruct (IH us) as [I1 I2].
    destruct (BuildUtil.many ds us) as [rs us2]. cbn in *. by rewrite I2.
  - destruct H1 as (r & -> & Hr).
    destruct (IH (<[r := task_of desc a tk]> us)) as [I1 I2].
    destruct (BuildUtil.many ds _) as [rs us2]. cbn in *. split; [|by rewrite I2].
    etrans; [|exact I1]. by apply insert_subseteq.
Qed.

Lemma many_spec (ds : list BuildTaskDefinition) (us : Units) :
  let '(rs, us') := BuildUtil.many ds us in
  length rs = length ds
  /\ us ⊆ us'
  /\ forall k d r, ds !! k = Some d -> rs !! k = Some r ->
      match d with
      | built t => r = t
      | plain desc a tk =>
          us !! r = None
          /\ exists t, us' !! r = Some t /\ action t = a
               /\ status (fields t) = S_created /\ ticks (fields t) = 0
               /\ description (fields t) = default "no description given" desc
               /\ (isTicking (fields t), totalTicks (fields t))
                  = match tk with
                    | Some z => if z =? 0 then (false, 0) else (true, z)
                    | None => (false, 0)
                    end
      end.
Proof.
  revert us. induction ds as [|d ds IH]; intros us; [by cbn|].
  cbn [BuildUtil.many]. pose proof (one_spec d us) as H1.
  destruct d as [t|desc a tk].
  - rewrite H1. specialize (IH us).
    destruct (BuildUtil.many ds us) as [rs us2]. destruct IH as (I1 & I2 & I3).
    split_and!; [by cbn; rewrite I1|done|].
    intros [|k] d r Hd Hr; cbn in Hd, Hr.
    + injection Hd as <-. by injection Hr as <-.
    + by apply (I3 k).
  - destruct H1 as (r0 & -> & Hr0).
    pose proof (many_grows ds (<[r0 := task_of desc a tk]> us)) as [Hsub _].
    specialize (IH (<[r0 := task_of desc a tk]> us)).
    destruct (BuildUtil.many ds _) as [rs us2]. destruct IH as (I1 & I2 & I3).
    cbn [snd] in Hsub.
    assert (Hus : us ⊆ <[r0 := task_of desc a tk]> us) by by apply insert_subseteq.
    split_and!; [by cbn; rewrite I1|by etrans|].
    intros [|k] d r Hd Hr; cbn in Hd, Hr.
    + injection Hd as <-. injection Hr as <-. split; [done|].
      exists (task_of desc a tk). split.
      { eapply lookup_weaken; [|exact Hsub]. by rewrite lookup_insert_eq. }
      unfold task_of, BuildUtil.has_ticks.
      destruct tk as [z|]; [destruct (z =? 0)|]; done.
    + specialize (I3 k d r Hd Hr). destruct d as [t|desc' a' tk']; [done|].
      destruct I3 as [Hn Ht]. split; [|done].
      eapply lookup_weaken_None; [exact Hn|exact Hus].
Qed.

(** [tasks.map((task) => BuildUtil.one(task))], as [BuildUtil.list] and
    [BuildUtil.parallel] use it: one reference per definition, in the same
    order; a definition that is a task already is passed through as it is;
    any other becomes a new task (its reference was not in use) that is
    ['created'] with [ticks = 0] and the given action, ticking with
    [totalTicks = ticks] when [ticks] is given and not [0], and not ticking
    with [totalTicks = 0] otherwise; the tasks that existed are untouched. *)
Theorem many_builds (ds : list BuildTaskDefinition) (us : Units) :
  let '(rs, us') := BuildUtil.many ds us in
  length rs = length ds
  /\ us ⊆ us'
  /\ forall k d r, ds !! k = Some d -> rs !! k = Some r ->
      match d with
      | built t => r = t
      | plain desc a tk =>
          us !! r = None
          /\ exists t, us' !! r = Some t /\ action t = a
               /\ status (fields t) = S_created /\ ticks (fields t) = 0
               /\ description (fields t) = default "no description given" desc
               /\ (isTicking (fields t), totalTicks (fields t))
                  = match tk with
                    | Some z => if z =? 0 then (false, 0) else (true, z)
                    | None => (false, 0)
                    end
      end.
Proof. exact (many_spec ds us). Qed.


Lemma many_plain_fresh (ds : list BuildTaskDefinition) (us : Units) :
  Forall is_plain ds ->
  NoDup (fst (BuildUtil.many ds us))
  /\ Forall (fun r => us !! r = None) (fst (BuildUtil.many ds us)).
Proof.
  revert us. induction ds as [|d ds IH]; intros us Hp; [by split; constructor|].
  inversion Hp as [|? ? Hd Hds]; subst. destruct d as [t|desc a tk]; [done|].
  cbn [BuildUtil.many]. destruct (one_spec (plain desc a tk) us) as (r0 & -> & Hr0).
  destruct (IH (<[r0 := task_of desc a tk]> us) Hds) as [I1 I2].
  destruct (BuildUtil.many ds _) as [rs us2]. cbn [fst] in *. split.
  - constructor; [|done]. intros Hin.
    pose proof (proj1 (Forall_forall _ _) I2 r0 Hin) as Hn.
    cbv beta in Hn. by rewrite lookup_insert_eq in Hn.
  - constructor; [done|]. eapply Forall_impl; [exact I2|].
    intros r Hr. cbn in Hr. eapply lookup_weaken_None; [exact Hr|].
    by apply insert_subseteq.
Qed.

Lemma map_spec (items : list Value) (act : ItemAction)
        (dm : option (Value -> string)) (us : Units) :
  let '(rs, us') := BuildUtil.map items act dm us in
  length rs = length items
  /\ NoDup rs
  /\ us ⊆ us'
  /\ forall k item r, items !! k = Some item -> rs !! k = Some r ->
      us !! r = None
      /\ exists t, us' !! r = Some t
           /\ (forall inp h, action t inp h = act item h)
           /\ status (fields t) = S_created
           /\ isTicking (fields t) = false
           /\ description (fields t)
              = match dm with Some f => f item | None => "no description given" end.
Proof.
  unfold BuildUtil.map.
  pose proof (many_spec (List.map (BuildUtil.item_definition act dm) items) us) as Hm.
  pose proof (many_plain_fresh (List.map (BuildUtil.item_definition act dm) items) us)
    as [Hnd _].
  { apply Forall_forall. intros d Hd. apply list_elem_of_fmap in Hd.
    by destruct Hd as (item & -> & _). }
  destruct (BuildUtil.many _ us) as [rs us']. cbn [fst] in Hnd.
  destruct Hm as (H1 & H2 & H3). rewrite length_map in H1.
  split_and!; try done.
  intros k item r Hi Hr.
  specialize (H3 k (BuildUtil.item_definition act dm item) r).
  rewrite list_lookup_fmap, Hi in H3. specialize (H3 eq_refl Hr).
  cbn in H3. destruct H3 as (Hn & t & Ht & Ha & Hs & _ & Hd & Htk).
  split; [done|]. exists t. split_and!; try done.
  - intros inp h. by rewrite Ha.
  - by injection Htk.
Qed.

(** [BuildUtil.map] makes one new task per item, in the order of the items
    and each under a reference of its own that was not in use; the task is
    ['created'], does not tick, is described by [descriptionMap(item)] (or
    the default text), and its action hands the item to the given function
    whatever input the task is run with, so inside a task list it never
    sees [state] or [last]. *)
Theorem map_builds (items : list Value) (act : ItemAction)
        (dm : option (Value -> string)) (us : Units) :
  let '(rs, us') := BuildUtil.map items act dm us in
  length rs = length items
  /\ NoDup rs
  /\ us ⊆ us'
  /\ forall k item r, items !! k = Some item -> rs !! k = Some r ->
      us !! r = None
      /\ exists t, us' !! r = Some t
           /\ (forall inp h, action t inp h = act item h)
           /\ status (fields t) = S_created
           /\ isTicking (fields t) = false
           /\ description (fields t)
              = match dm with Some f => f item | None => "no description given" end.
Proof. exact (map_spec items act dm us). Qed.


(** ** TaskList: the calls of a run *)

Section Calls.
Context {B : Type} (onChild : Signal -> B -> B)
        (onEmpty : TaskList -> B -> TaskList * B * option Value).

(** A turn either calls no child and leaves tasks, heap and record of calls
    alone, or calls the child under the cursor once, on the current heap,
    and stores that child back under its reference with the same action. *)
Lemma list_step_effect (p : Proc) (us : Units) (h : Heap) (b : B) :
  let '(p', us', h', _) := list_step onChild onEmpty p us h b in
  (calls p' = calls p /\ us' = us /\ h' = h)
  \/ exists c t f' inp rs out,
       us !! c = Some t /\ action t inp h = (h', rs, out)
       /\ calls p' = calls p ++ [(c, inp, out)]
       /\ us' = <[c := mkTask f' (action t)]> us
       /\ settled_as out f'.
Proof.
  unfold list_step. destruct (pc p) as [st prev|st prev|o].
  - destruct (_ <? _)%nat.
    2:{ cbv beta iota. left. by destruct (finish_keeps (Return prev) (lane p) p)
          as (_ & _ & _ & _ & _ & _ & _ & -> & _). }
    destruct (_ !! _) as [c|].
    2:{ cbv beta iota. left. by destruct (finish_keeps (Throw not_a_task) (lane p) p)
          as (_ & _ & _ & _ & _ & _ & _ & -> & _). }
    unfold run_child. destruct (us !! c) as [t|] eqn:Hus.
    2:{ cbv beta iota. left. by destruct (finish_keeps (Throw not_a_task) (set_empty false (lane p)) p)
          as (_ & _ & _ & _ & _ & _ & _ & -> & _). }
    cbv zeta.
    destruct (action t (child_input st prev p) h) as [[h1 rs] out] eqn:Ha.
    destruct (execute_child_signals c (child_input st prev p) t h h1 rs out Ha)
      as (f' & -> & _ & Hset).
    destruct out as [v|e].
    + destruct (_ <=? _)%nat.
      2:{ right. by exists c, t, f', (child_input st prev p), rs, (Return v). }
      match goal with |- context [onEmpty ?l ?b1] =>
        destruct (onEmpty l b1) as [[l4 b2] [e|]] end.
      2:{ right. by exists c, t, f', (child_input st prev p), rs, (Return v). }
      match goal with |- context [finish (Throw e) ?l ?q] =>
        destruct (finish_keeps (Throw e) l q) as (_ & _ & _ & _ & _ & _ & _ & Hc & _);
        destruct (finish (Throw e) l q) end.
      cbn in Hc. right. by exists c, t, f', (child_input st prev p), rs, (Return v).
    + match goal with |- context [finish (Throw e) ?l ?q] =>
        destruct (finish_keeps (Throw e) l q) as (_ & _ & _ & _ & _ & _ & _ & Hc & _);
        destruct (finish (Throw e) l q) end.
      cbn in Hc. right. by exists c, t, f', (child_input st prev p), rs, (Throw e).
  - destruct (wait (lane p)); by left.
  - by left.
Qed.

Lemma sound_call_insert (us : Units) (c : nat) (t : Task) (f : Fields)
      (e : nat * Input * Outcome Value) :
  us !! c = Some t ->
  sound_call (<[c := mkTask f (action t)]> us) e -> sound_call us e.
Proof.
  intros Hc (t1 & h1 & h2 & rs & Ht1 & Ha). unfold sound_call.
  destruct (decide (c = fst (fst e))) as [Heq|Hne].
  - rewrite <- Heq in *. rewrite lookup_insert_eq in Ht1. injection Ht1 as <-.
    by exists t, h1, h2, rs.
  - rewrite lookup_insert_ne in Ht1 by done. by exists t1, h1, h2, rs.
Qed.

Lemma list_steps_sound (n : nat) (p : Proc) (us : Units) (h : Heap) (b : B) :
  let '(p', us', _, _) := list_steps onChild onEmpty n p us h b in
  (forall c, action <$> us' !! c = action <$> us !! c)
  /\ exists cs, calls p' = calls p ++ cs /\ Forall (sound_call us) cs.
Proof.
  revert p us h b. induction n as [|n IH]; intros p us h b.
  - cbn. split; [done|]. exists []. by rewrite app_nil_r.
  - cbn [list_steps]. pose proof (list_step_effect p us h b) as He.
    destruct (list_step onChild onEmpty p us h b) as [[[p1 us1] h1] b1].
    specialize (IH p1 us1 h1 b1).
    destruct (list_steps onChild onEmpty n p1 us1 h1 b1) as [[[p' us'] h'] b'].
    destruct IH as (Hact & cs & Hcs & Hsound).
    destruct He as [(Hc & -> & ->)|(c & t & f' & inp & rs & out & Hus & Ha & Hc & -> & _)].
    + split; [done|]. exists cs. by rewrite Hcs, Hc.
    + split.
      * intros c'. rewrite Hact. destruct (decide (c = c')) as [<-|Hne].
        -- by rewrite lookup_insert_eq, Hus.
        -- by rewrite lookup_insert_ne.
      * exists ((c, inp, out) :: cs). split.
        -- by rewrite Hcs, Hc, <- app_assoc.
        -- constructor; [by exists t, h, h1, rs|].
           eapply Forall_impl; [exact Hsound|].
           intros e. by apply sound_call_insert.
Qed.

(** Through any number of turns and whoever listens, a task list only adds
    to the record of its calls, every call it adds is the action of that
    child run on the input the list handed over, with exactly the outcome
    recorded (a child's error is passed on as it is), and no task of the
    store gets another action. *)
Theorem calls_are_sound (n : nat) (p : Proc) (us : Units) (h : Heap) (b : B) :
  let '(p', us', _, _) := list_steps onChild onEmpty n p us h b in
  (forall c, action <$> us' !! c = action <$> us !! c)
  /\ exists cs, calls p' = calls p ++ cs /\ Forall (sound_call us) cs.
Proof. exact (list_steps_sound n p us h b). Qed.
End Calls.

(** ** BuildUtil.listMap, run *)

(** A task list built by [listMap] from a non-empty list of items, with a
    function that returns for every item, runs to the end when executed:
    it calls the function once per item, in the order of the items, and
    resolves, ['done'], with what the function returned for the last item. *)
Theorem listMap_runs_items (items : list Value) (act : ItemAction)
        (d : option string) (dm : option (Value -> string)) (us : Units)
        (inp : Value) (h : Heap) :
  items <> [] ->
  (forall item h, exists h' rs v, act item h = (h', rs, Return v)) ->
  let '(l, us0) := BuildUtil.listMap items act d dm us in
  exists n final,
    let '(p, _, _) := run_list n inp l us0 h in
    pc p = pc_settled (Return final)
    /\ status (lfields (lane p)) = S_done /\ result (lfields (lane p)) = final
    /\ length (calls p) = length items
    /\ (forall k item, items !! k = Some item ->
        exists e h1 h2 rs, calls p !! k = Some e /\ act item h1 = (h2, rs, snd e))
    /\ exists item h1 h2 rs,
         last items = Some item /\ act item h1 = (h2, rs, Return final).
Proof.
  intros Hne Hact. unfold BuildUtil.listMap.
  pose proof (map_spec items act dm us) as Hm.
  destruct (BuildUtil.map items act dm us) as [rs us0].
  destruct Hm as (Hlen & _ & _ & Hitem). unfold TaskUtil.createList.
  assert (Hall : all_return rs us0).
  { apply Forall_forall. intros r Hr.
    apply list_elem_of_lookup in Hr as [k Hk].
    destruct (lookup_lt_is_Some_2 items k) as [item Hi].
    { rewrite <- Hlen. by eapply lookup_lt_Some. }
    destruct (Hitem k item r Hi Hk) as (_ & t & Ht & Ha & _).
    exists t. split; [done|]. intros i0 h0. rewrite Ha. apply Hact. }
  destruct (run_list_all_return rs (default "no description given" d) ctl_this
              false inp us0 h Hall)
    as (n & p & us' & h' & final & Hrun & Hpc & Hch & _ & _ & Hsd & Hrf).
  exists n, final. rewrite Hrun.
  (* the calls of the run are calls of the actions built by [map] *)
  assert (Hsound : Forall (sound_call us0) (calls p)).
  { unfold run_list in Hrun. rewrite list_execute_spec in Hrun.
    pose proof (list_steps_sound alone_onChild alone_onEmpty n
                  (mkProc (set_lfields (execute_begin (lfields
                             (new_list rs (default "no description given" d) ctl_this false)))
                             (new_list rs (default "no description given" d) ctl_this false))
                          (pc_loop (fst (initial_state inp h)) (VBool false)) inp [])
                  us0 (snd (initial_state inp h)) tt) as Hs.
    destruct (list_steps _ _ n _ us0 _ tt) as [[[p1 us1] h1] b1].
    injection Hrun as -> _ _. destruct Hs as (_ & cs & Hcs & Hs).
    cbn in Hcs. by rewrite Hcs. }
  pose proof (chained_refs _ _ _ _ _ Hch) as Hrefs.
  assert (Hcl : length (calls p) = length items).
  { by rewrite <- Hlen, <- Hrefs, length_fmap. }
  assert (Hk : forall k item, items !! k = Some item ->
               exists e h1 h2 rs0, calls p !! k = Some e
                                   /\ act item h1 = (h2, rs0, snd e)).
  { intros k item Hi.
    destruct (lookup_lt_is_Some_2 (calls p) k) as [e He].
    { rewrite Hcl. by eapply lookup_lt_Some. }
    assert (Hr : rs !! k = Some (fst (fst e))).
    { by rewrite <- Hrefs, list_lookup_fmap, He. }
    destruct (Hitem k item _ Hi Hr) as (_ & t & Ht & Ha & _).
    destruct (proj1 (Forall_lookup _ _) Hsound k e He)
      as (t1 & h1 & h2 & rs0 & Ht1 & Ha1).
    rewrite Ht in Ht1. injection Ht1 as <-. rewrite Ha in Ha1.
    by exists e, h1, h2, rs0. }
  split_and!; try done.
  destruct (chained_last _ _ _ _ _ Hch) as (e & He & Hres).
  { intros ->. destruct items; [done|discriminate Hlen]. }
  rewrite last_lookup, Hcl in He.
  destruct (lookup_lt_is_Some_2 items (pred (length items))) as [item Hi].
  { destruct items; [done|cbn; lia]. }
  destruct (Hk _ item Hi) as (e' & h1 & h2 & rs0 & He' & Ha).
  rewrite He in He'. injection He' as <-.
  exists item, h1, h2, rs0. split; [by rewrite last_lookup|].
  destruct (snd e) as [v|]; [|done]. cbn in Hres. by injection Hres as ->.
Qed.

Lemma listMap_runs_items_witness :
  exists n final,
    pc (fst (fst (run_list n VNull
                    (fst (BuildUtil.listMap [VNum 1; VNum 2] item_echo None None ∅))
                    (snd (BuildUtil.listMap [VNum 1; VNum 2] item_echo None None ∅))
                    ∅)))
    = pc_settled (Return final).
Proof.
  pose proof (listMap_runs_items [VNum 1; VNum 2] item_echo None None ∅ VNull ∅
                ltac:(discriminate)
                ltac:(intros item h; exists h, [], item; reflexivity)) as H.
  destruct (BuildUtil.listMap [VNum 1; VNum 2] item_echo None None ∅) as [l us0].
  destruct H as (n & final & H). exists n, final. cbn [fst snd].
  destruct (run_list n VNull l us0 ∅) as [[p us'] h']. exact (proj1 H).
Defined.

(** ** Task: [toPromise] on a task that has been started *)

(** [toPromise] on a task that is no longer ['created'] does not run it: the
    promise is pending, nothing but the subscription changes.  The
    subscription to ['error'] it makes is a listener like any other: if the
    action then throws [e], [execute] sets the status ['error'] and throws
    [e] itself, and the subscription, made with [once], is used up. *)
Theorem toPromise_subscribes (t : Task) (h h' : Heap) (inp : Input)
        (rs : list Z) (e : Value) :
  status (fields t) <> S_created ->
  action t inp h = (h', rs, Throw e) ->
  let '(t1, h1, pr) := toPromise t h in
  pr = Pending /\ h1 = h
  /\ status (fields t1) = status (fields t)
  /\ result (fields t1) = result (fields t)
  /\ emitted (fields t1) = emitted (fields t)
  /\ let '(t2, _, o) := execute inp t1 h in
     o = Throw e /\ status (fields t2) = S_error /\ error (fields t2) = e
     /\ errorOnce (fields t2) = 0%nat.
Proof.
  intros Hs Ha. unfold toPromise.
  destruct (status (fields t)) eqn:Hst; [done| | |];
    (split_and!; [done..|]);
    rewrite execute_unfold; cbn [action fields]; rewrite Ha;
    pose proof (report_fields rs (execute_begin (once_error (fields t)))) as Hr;
    cbn in Hr; destruct Hr as (_ & _ & _ & _ & Hl & Ho & _);
    unfold execute_settle, execute_catch, emit; cbn;
    rewrite Hl, Ho; cbn;
    replace (errorListeners (fields t) + S (errorOnce (fields t)) =? 0)%nat
      with false by (symmetry; apply Nat.eqb_neq; lia);
    done.
Qed.

Lemma toPromise_subscribes_witness :
  let '(t1, _, pr) := toPromise running_boom ∅ in
  pr = Pending
  /\ let '(t2, _, o) := execute (in_raw VNull) t1 ∅ in
     o = Throw (VError "boom") /\ status (fields t2) = S_error.
Proof.
  pose proof (toPromise_subscribes running_boom ∅ ∅ (in_raw VNull) []
                (VError "boom") ltac:(discriminate) eq_refl) as H.
  destruct (toPromise running_boom ∅) as [[t1 h1] pr].
  destruct H as (H1 & _ & _ & _ & _ & H2). split; [exact H1|].
  destruct (execute (in_raw VNull) t1 ∅) as [[t2 h2] o].
  destruct H2 as (H3 & H4 & _). split; [exact H3 | exact H4].
Defined.

(** ** TaskList: the children after a run *)

Section Children.
Context {B : Type} (onChild : Signal -> B -> B)
        (onEmpty : TaskList -> B -> TaskList * B * option Value).

Lemma list_steps_children (n : nat) (p : Proc) (us : Units) (h : Heap) (b : B) :
  let '(p', us', _, _) := list_steps onChild onEmpty n p us h b in
  exists cs, calls p' = calls p ++ cs
    /\ (forall c, Forall (fun e => fst (fst e) <> c) cs -> us' !! c = us !! c)
    /\ Forall (fun e => exists t' e2,
                 us' !! fst (fst e) = Some t' /\ e2 ∈ cs
                 /\ fst (fst e2) = fst (fst e) /\ settled_as (snd e2) (fields t')) cs.
Proof.
  revert p us h b. induction n as [|n IH]; intros p us h b.
  - cbn. exists []. rewrite app_nil_r. split_and!; [done|done|constructor].
  - cbn [list_steps]. pose proof (list_step_effect onChild onEmpty p us h b) as He.
    destruct (list_step onChild onEmpty p us h b) as [[[p1 us1] h1] b1].
    specialize (IH p1 us1 h1 b1).
    destruct (list_steps onChild onEmpty n p1 us1 h1 b1) as [[[p' us'] h'] b'].
    destruct IH as (cs & Hcs & Hframe & Hset).
    destruct He as [(Hc & -> & ->)
                   |(c & t & f' & inp & rs & out & Hus & Ha & Hc & -> & Hf')].
    + exists cs. by rewrite Hcs, Hc.
    + exists ((c, inp, out) :: cs). split_and!.
      * by rewrite Hcs, Hc, <- app_assoc.
      * intros c' Hall. inversion Hall as [|? ? Hhd Htl]; subst. cbn in Hhd.
        rewrite (Hframe c' Htl). by rewrite lookup_insert_ne.
      * constructor.
        -- cbn [fst snd].
           destruct (decide (Exists (fun e => fst (fst e) = c) cs)) as [Hex|Hno].
           ++ apply Exists_exists in Hex as (e & He & Hk).
              destruct (proj1 (Forall_forall _ _) Hset e He)
                as (t' & e2 & Ht' & He2 & Hk2 & Hs2).
              exists t', e2. rewrite <- Hk. split_and!; try done.
              by apply list_elem_of_further.
           ++ apply not_Exists_Forall in Hno; [|intros e; apply _].
              exists (mkTask f' (action t)), (c, inp, out). split_and!; try done.
              ** rewrite (Hframe c); [by rewrite lookup_insert_eq|].
                 eapply Forall_impl; [exact Hno|]. intros e He. exact He.
              ** apply list_elem_of_here.
        -- eapply Forall_impl; [exact Hset|].
           intros e (t' & e2 & Ht' & He2 & Hk2 & Hs2). exists t', e2.
           split_and!; try done. by apply list_elem_of_further.
Qed.

(** After any number of turns, whoever listens: a task of the store that
    the list did not call is exactly as it was; a task it did call is
    stored with the status ['done'] and the returned value as [result], or
    with the status ['error'] and the thrown value as [error], as one of
    the recorded calls of that task ended. *)
Theorem called_children_are_settled (n : nat) (p : Proc) (us : Units)
        (h : Heap) (b : B) :
  let '(p', us', _, _) := list_steps onChild onEmpty n p us h b in
  exists cs, calls p' = calls p ++ cs
    /\ (forall c, Forall (fun e => fst (fst e) <> c) cs -> us' !! c = us !! c)
    /\ Forall (fun e => exists t' e2,
                 us' !! fst (fst e) = Some t' /\ e2 ∈ cs
                 /\ fst (fst e2) = fst (fst e) /\ settled_as (snd e2) (fields t')) cs.
Proof. exact (list_steps_children n p us h b). Qed.
End Children.

(** ** BuildUtil: the lists and buckets it builds *)

(** What [BuildUtil.list], [parallel], [listMap] and [parallelMap] hand
    back has not run yet and counts its tasks: the queue holds the tasks
    that [BuildUtil.one] or [BuildUtil.map] made, in that order,
    [totalTicks] is the number of definitions or items given, the cursor is
    at the start and the status is ['created']; a list is not paused, is no
    queue of a bucket, is its own controller and listens to no child yet; a
    bucket has an empty pool, the given collector, and [parallel = 10] when
    none is given.  For [listMap] and [parallelMap] every entry of the
    queue is a task of the store that has not run. *)
Theorem built_scopes_count_their_tasks (ds : list BuildTaskDefinition)
        (items : list Value) (act : ItemAction) (d : option string)
        (dm : option (Value -> string)) (par : option Z) (col : option Collect)
        (us : Units) :
  (let l := fst (BuildUtil.list ds us) in
   tasks (l_queue l) = fst (BuildUtil.many ds us)
   /\ totalTicks (lfields l) = Z.of_nat (length ds)
   /\ taskIndex (l_queue l) = 0%nat /\ status (lfields l) = S_created
   /\ wait l = false /\ isQueue l = false /\ controller l = ctl_this
   /\ listening l = [])
  /\ (let b := fst (BuildUtil.parallel ds par d col us) in
      tasks (b_queue b) = fst (BuildUtil.many ds us)
      /\ totalTicks (bfields b) = Z.of_nat (length ds)
      /\ taskIndex (b_queue b) = 0%nat /\ status (bfields b) = S_created
      /\ parallel b = default 10 par /\ taskLists b = [] /\ collect b = col)
  /\ (let '(l, us') := BuildUtil.listMap items act d dm us in
      tasks (l_queue l) = fst (BuildUtil.map items act dm us)
      /\ totalTicks (lfields l) = Z.of_nat (length items)
      /\ length (tasks (l_queue l)) = length items
      /\ taskIndex (l_queue l) = 0%nat /\ status (lfields l) = S_created
      /\ description (lfields l) = default "no description given" d
      /\ wait l = false /\ isQueue l = false /\ controller l = ctl_this
      /\ listening l = []
      /\ Forall (fun r => exists t, us' !! r = Some t
                            /\ status (fields t) = S_created) (tasks (l_queue l)))
  /\ (let '(b, us') := BuildUtil.parallelMap items act d par dm col us in
      tasks (b_queue b) = fst (BuildUtil.map items act dm us)
      /\ totalTicks (bfields b) = Z.of_nat (length items)
      /\ length (tasks (b_queue b)) = length items
      /\ taskIndex (b_queue b) = 0%nat /\ status (bfields b) = S_created
      /\ description (bfields b) = default "no description given" d
      /\ parallel b = default 10 par /\ taskLists b = [] /\ collect b = col
      /\ Forall (fun r => exists t, us' !! r = Some t
                            /\ status (fields t) = S_created) (tasks (b_queue b))).
Proof.
  assert (Hmade : Forall (fun r => exists t,
                            snd (BuildUtil.map items act dm us) !! r = Some t
                            /\ status (fields t) = S_created)
                         (fst (BuildUtil.map items act dm us))).
  { pose proof (map_spec items act dm us) as Hm.
    destruct (BuildUtil.map items act dm us) as [rs us']. cbn [fst snd].
    destruct Hm as (Hlen & _ & _ & Hitem).
    apply Forall_forall. intros r Hr. apply list_elem_of_lookup in Hr as [k Hk].
    destruct (lookup_lt_is_Some_2 items k) as [item Hi].
    { rewrite <- Hlen. by eapply lookup_lt_Some. }
    destruct (Hitem k item r Hi Hk) as (_ & t & Ht & _ & Hs & _). by exists t. }
  assert (Hlen : length (fst (BuildUtil.map items act dm us)) = length items).
  { pose proof (map_spec items act dm us) as Hm.
    destruct (BuildUtil.map items act dm us) as [rs us']. by destruct Hm. }
  pose proof (many_grows ds us) as [_ Hl].
  unfold BuildUtil.list, BuildUtil.parallel, BuildUtil.listMap,
    BuildUtil.parallelMap.
  destruct (BuildUtil.many ds us) as [rs us1].
  destruct (BuildUtil.map items act dm us) as [rs' us2].
  cbn in *. rewrite Hl, Hlen. split_and!; done.
Qed.

(** ** TaskBucket: the lists of the pool *)

Lemma pool_list_ext (l l' : TaskList) :
  isQueue l' = isQueue l -> controller l' = controller l ->
  pool_list l -> pool_list l'.
Proof. unfold pool_list. intros -> ->. done. Qed.

Lemma fed_raw_set_lane (inp : Value) (l : TaskList) (p : Proc) :
  pool_list l -> fed_raw inp p -> fed_raw inp (set_lane l p).
Proof. by intros Hl (_ & Hi & Hc). Qed.

Lemma checkDone_pool (inp : Value) (b : TaskBucket) :
  pool_fed inp b -> pool_fed inp (checkDone b).
Proof.
  unfold checkDone, pool_fed. intros Hb. destruct (forallb _ _); [|done].
  cbn. apply Forall_fmap. eapply Forall_impl; [exact Hb|].
  intros p Hp. apply fed_raw_set_lane; [|done]. by destruct Hp as (Hl & _).
Qed.

Lemma bucket_onEmpty_pool (inp : Value) (i : nat) (l : TaskList) (b : TaskBucket) :
  pool_list l -> pool_fed inp b ->
  pool_list (fst (fst (bucket_onEmpty i l b)))
  /\ pool_fed inp (snd (fst (bucket_onEmpty i l b))).
Proof.
  intros Hl Hb. unfold bucket_onEmpty. destruct (_ <=? _)%nat.
  - cbn [fst snd].
    assert (Hb1 : pool_fed inp
                    (checkDone (set_taskLists (alter (set_lane l) i (taskLists b)) b))).
    { apply checkDone_pool. unfold pool_fed. cbn.
      apply Forall_alter; [exact Hb|]. intros p _ Hp. by apply fed_raw_set_lane. }
    split; [|done].
    destruct (taskLists _ !! i) as [p|] eqn:Hp; [|done]. cbn.
    by destruct (proj1 (Forall_lookup _ _) Hb1 i p Hp) as (? & _).
  - destruct (_ !! _) as [u|]; [|done].
    unfold list_addTask. by destruct (addTask _ u (l_queue l)).
Qed.

Lemma bucket_onChild_taskLists (sigs : list Signal) (b : TaskBucket) :
  taskLists (fold_left (fun b s => bucket_onChild s b) sigs b) = taskLists b.
Proof.
  apply (fold_onChild_related bucket_onChild (fun b b' => taskLists b' = taskLists b)).
  - done.
  - intros b1 b2 b3 H1 H2. congruence.
  - intros s b0. by destruct s.
Qed.

Lemma list_step_pool (inp : Value) (i : nat) (p : Proc) (us : Units) (h : Heap)
      (b : TaskBucket) :
  fed_raw inp p -> pool_fed inp b ->
  let '(p', _, _, b') := list_step bucket_onChild (bucket_onEmpty i) p us h b in
  fed_raw inp p' /\ pool_fed inp b'.
Proof.
  intros (Hl & Hi & Hcs) Hb. unfold list_step.
  destruct (pc p) as [st prev|st prev|o].
  - assert (Hfin : forall o l q, pool_list l -> input q = inp ->
                     Forall (fun e => snd (fst e) = in_raw inp) (calls q) ->
                     fed_raw inp (finish o l q)).
    { intros o l q Hq Hiq Hcq. destruct (finish_keeps o l q)
        as (_ & _ & _ & _ & Hk1 & Hk2 & _ & Hk3 & Hk4 & _).
      split_and!; [by apply (pool_list_ext l)|congruence|by rewrite Hk3]. }
    destruct (_ <? _)%nat; [|split; [by apply Hfin|done]].
    destruct (_ !! _) as [c|]; [|split; [by apply Hfin|done]].
    unfold run_child. destruct (us !! c) as [t|]; [|split; [by apply Hfin|done]].
    cbv zeta. destruct (execute _ _ h) as [[t2 h'] out].
    rewrite list_emit_all by apply relayed_not_error.
    match goal with |- context [emitted_more ?sigs (listen c (set_empty false (lane p)))] =>
      set (heard := sigs);
      destruct (stepped_list_fields (lane p) c heard)
        as [(_ & _ & _ & H3q & H3c & _) _];
      pose proof (bucket_onChild_taskLists heard b) as Hb1 end.
    assert (Hl2 : pool_list (emitted_more heard (listen c (set_empty false (lane p))))).
    { by apply (pool_list_ext (lane p)). }
    assert (Hpool1 : pool_fed inp (fold_left (fun b s => bucket_onChild s b) heard b)).
    { unfold pool_fed. by rewrite Hb1. }
    assert (Hcs' : Forall (fun e => snd (fst e) = in_raw inp)
                          (calls p ++ [(c, child_input st prev p, out)])).
    { apply Forall_app. split; [done|]. constructor; [|done]. cbn.
      unfold child_input. destruct Hl as [-> _]. by rewrite Hi. }
    destruct out as [v|e]; [|split; [by apply Hfin|done]].
    destruct (_ <=? _)%nat;
      [|split; [split_and!; [by apply (pool_list_ext (lane p))|done|done]|done]].
    match goal with |- context [bucket_onEmpty i ?l ?b1] =>
      destruct (bucket_onEmpty_pool inp i l b1) as [He1 He2];
        [by apply (pool_list_ext (lane p))|done|];
      destruct (bucket_onEmpty i l b1) as [[l4 b2] [e|]] end;
      cbn [fst snd] in He1, He2; (split; [|done]); [by apply Hfin|done].
  - by destruct (wait (lane p)).
  - done.
Qed.

Lemma bucket_step_pool (inp : Value) (i : nat) (b : TaskBucket) (us : Units)
      (h : Heap) :
  pool_fed inp b -> pool_fed inp (fst (fst (bucket_step i b us h))).
Proof.
  intros Hb. unfold bucket_step. destruct (taskLists b !! i) as [p|] eqn:Hp; [|done].
  pose proof (list_step_pool inp i p us h b
                (proj1 (Forall_lookup _ _) Hb i p Hp) Hb) as Hs.
  destruct (list_step bucket_onChild (bucket_onEmpty i) p us h b)
    as [[[p' us'] h'] b1].
  destruct Hs as [Hp' Hb1]. cbn [fst].
  assert (Hb2 : pool_fed inp (set_taskLists (<[i := p']> (taskLists b1)) b1)).
  { unfold pool_fed. cbn. by apply Forall_insert. }
  destruct (pc p') as [| |[v|e]]; try done.
  cbn [set_taskLists rejected]. destruct (rejected b1); [done|].
  by destruct (is_settled (pc p)).
Qed.

Lemma bucket_steps_pool (inp : Value) (sched : list nat) (b : TaskBucket)
      (us : Units) (h : Heap) :
  pool_fed inp b -> pool_fed inp (fst (fst (bucket_steps sched b us h))).
Proof.
  revert b us h. induction sched as [|i sched IH]; intros b us h Hb; [done|].
  cbn [bucket_steps]. pose proof (bucket_step_pool inp i b us h Hb) as Hs.
  destruct (bucket_step i b us h) as [[b1 us1] h1]. by apply IH.
Qed.

Lemma execute_all_pool (inp : Value) (ls : list TaskList) (h : Heap) :
  Forall pool_list ls -> Forall (fed_raw inp) (fst (execute_all inp ls h)).
Proof.
  revert h. induction ls as [|l ls IH]; intros h Hls; [constructor|].
  inversion Hls as [|? ? Hl Hrest]; subst. cbn [execute_all].
  rewrite list_execute_spec. specialize (IH (snd (initial_state inp h)) Hrest).
  destruct (execute_all inp ls _) as [ps h2]. cbn in *.
  constructor; [|done]. split_and!; [done|done|constructor].
Qed.

(** Every task list of a bucket's pool is one the bucket built - it has
    [isQueue] set and the bucket as controller - and that stays so through
    a run of the bucket on [inp], for the lists the run adds and whatever
    the order of the turns; every child that a list of the pool calls during
    the run is handed [inp] as it is, never the object
    [{state, last, controller}].  A bucket that has not run has an empty
    pool. *)
Theorem pool_children_get_raw_input (sched : list nat) (inp : Value)
        (b : TaskBucket) (us : Units) (h : Heap) :
  pool_lists b ->
  let b' := fst (fst (fst (bucket_execute sched inp b us h))) in
  forall p, p ∈ taskLists b' ->
    isQueue (lane p) = true /\ controller (lane p) = ctl_bucket
    /\ input p = inp
    /\ forall e, e ∈ calls p -> snd (fst e) = in_raw inp.
Proof.
  intros Hb. cbv zeta.
  assert (Hfed : pool_fed inp (fst (fst (fst (bucket_execute sched inp b us h))))).
  { unfold bucket_execute.
    set (b1 := set_bfields (execute_begin (bfields b)) b).
    assert (Hsp : Forall pool_list (spawn b1)).
    { unfold spawn. apply Forall_app. split.
      - apply Forall_fmap. exact Hb.
      - apply Forall_forall. intros l Hl. apply elem_of_replicate in Hl.
        by destruct Hl as [-> _]. }
    pose proof (execute_all_pool inp (spawn b1) h Hsp) as Hall.
    destruct (execute_all inp (spawn b1) h) as [ps h1]. cbn [fst] in Hall.
    pose proof (bucket_steps_pool inp sched (set_rejected None (set_taskLists ps b1))
                  us h1 Hall) as Hrun.
    destruct (bucket_steps sched _ us h1) as [[b3 us'] h2]. cbn [fst] in Hrun.
    destruct (bucket_collect inp b3 us' h2) as [h3 [|o]]; [done|].
    destruct (execute_settle o (bfields b3)) as [f o']. done. }
  intros p Hp.
  destruct (proj1 (Forall_forall _ _) Hfed p Hp) as ((Hq & Hc) & Hi & Hcs).
  split_and!; try done. intros e He. by apply (proj1 (Forall_forall _ _) Hcs).
Qed.

Lemma pool_children_get_raw_input_witness :
  Forall (fun p => Forall (fun e => snd (fst e) = in_raw (VNum 5)) (calls p))
         (taskLists (fst (fst (fst (bucket_execute [0%nat; 0%nat] (VNum 5)
                                      rerun_bucket echo_units ∅))))).
Proof.
  apply Forall_forall. intros p Hp. apply Forall_forall.
  exact (proj2 (proj2 (proj2
           (pool_children_get_raw_input [0%nat; 0%nat] (VNum 5) rerun_bucket
              echo_units ∅ ltac:(repeat constructor) p Hp)))).
Defined.

(** The task list of [rerun_bucket] calls its child on the next run of the
    bucket and hands it the input of the bucket. *)
Example rerun_pool_list_hands_input_on :
  calls <$> taskLists (fst (fst (fst (bucket_execute [0%nat; 0%nat] (VNum 5)
                                        rerun_bucket echo_units ∅))))
  = [[(0%nat, in_raw (VNum 5), Return (VNum 5))]].
Proof. by vm_compute. Qed.
